(** * amgcl: the CPU multigrid level ([amgcl/cpu_level.hpp])

    A shallow embedding of [amg::level::cpu<value_t, index_t>]: the damped
    Jacobi smoother [relax], the residual norm [resid] and the recursive
    multigrid [cycle], followed by the properties of the specification that
    are settled against them.

    Conventions of the embedding.
    - [value_t] is a type [V] with the arithmetic the source uses (class
      [Scalar]). No algebraic law is assumed unless a statement says so, so
      the law-free results hold for any arithmetic, IEEE included; the
      statements that speak of sums ([rhs[i] - (A x)[i]]) take the field laws
      as a hypothesis and are exercised on the rationals [Qc].
    - [index_t] and [unsigned] counters are [nat]; vectors are lists, read
      with [!!] and written with [store].
    - An access outside a vector is undefined behaviour in C++; the embedding
      returns [None] there, so [Some] means: every access was in range.
    - The [omp parallel for] loops have row-disjoint writes and read only
      vectors that the loop does not write, so they are run in index order. *)

From Stdlib Require Import ZArith QArith Qcanon Field Lia.
From stdpp Require Import base tactics option list.

Unset Default Proof Using.
Local Open Scope nat_scope.

(** ** Scalars *)

(** The operations [cpu_level.hpp] applies to [value_t]: the literals [0],
    [1] and [0.72], [+], [-], [*], [/] and [sqrt]. *)
Class Scalar (V : Type) := {
  vzero : V;
  vone : V;
  vlit : Q → V;
  vadd : V → V → V;
  vsub : V → V → V;
  vmul : V → V → V;
  vdiv : V → V → V;
  vsqrt : V → V
}.

Declare Scope scalar_scope.
Delimit Scope scalar_scope with V.
Infix "⊕" := vadd (at level 50, left associativity) : scalar_scope.
Infix "⊖" := vsub (at level 50, left associativity) : scalar_scope.
Infix "⊗" := vmul (at level 40, left associativity) : scalar_scope.
Infix "⊘" := vdiv (at level 40, left associativity) : scalar_scope.

(** The damping factor: the literal [0.72] of [relax]. *)
Definition omega `{Scalar V} : V := vlit 0.72%Q.

(** ** Data *)

(** Modelled from the spec: [sparse::matrix<value_t, index_t>] of
    [amgcl/spmat.hpp], a compressed-row matrix. [cpu_level.hpp] reads its
    members [rows], [row] (row offsets), [col] (column indices) and [val]. *)
Record matrix (V : Type) := Matrix {
  rows : nat;
  row : list nat;
  col : list nat;
  val : list V
}.
Arguments Matrix {V} _ _ _ _.
Arguments rows {V} _.
Arguments row {V} _.
Arguments col {V} _.
Arguments val {V} _.

(** Modelled from the spec: [amg::params], of which [cycle] reads the three
    counters. *)
Record params := Params {
  ncycle : nat;
  npre : nat;
  npost : nat
}.

(** The members of [class cpu]. *)
Record cpu (V : Type) := Cpu {
  A : matrix V;
  P : matrix V;
  R : matrix V;
  Ai : matrix V;
  u : list V;
  f : list V;
  t : list V
}.
Arguments Cpu {V} _ _ _ _ _ _ _.
Arguments A {V} _.
Arguments P {V} _.
Arguments R {V} _.
Arguments Ai {V} _.
Arguments u {V} _.
Arguments f {V} _.
Arguments t {V} _.

Definition set_u {V} (lvl : cpu V) (w : list V) : cpu V :=
  Cpu (A lvl) (P lvl) (R lvl) (Ai lvl) w (f lvl) (t lvl).
Definition set_f {V} (lvl : cpu V) (w : list V) : cpu V :=
  Cpu (A lvl) (P lvl) (R lvl) (Ai lvl) (u lvl) w (t lvl).
Definition set_t {V} (lvl : cpu V) (w : list V) : cpu V :=
  Cpu (A lvl) (P lvl) (R lvl) (Ai lvl) (u lvl) (f lvl) w.

(** ** Loops and vector accesses *)

(** [for (j = js[0]; ...; ++j) body]: the body runs once per index, in
    order, and the first out-of-range access stops the run. *)
Fixpoint for_each {St : Type} (js : list nat) (body : nat → St → option St)
    (s : St) : option St :=
  match js with
  | [] => Some s
  | j :: js' => s' ← body j s; for_each js' body s'
  end.

(** [w[i] = a]. *)
Definition store {V} (w : list V) (i : nat) (a : V) : option (list V) :=
  if decide (i < length w) then Some (<[i := a]> w) else None.

(** Ghost trace: one event per step of [cycle], tagged with the number of
    levels between [lvl] and [end]. The trace is instrumentation only; no
    computed value depends on it. *)
Inductive event :=
  | EvRelax (r : nat)
  | EvResidual (r : nat)
  | EvRestrict (r : nat)
  | EvZero (r : nat)
  | EvCall (r : nat)
  | EvReturn (r : nat)
  | EvProlong (r : nat)
  | EvSolve (r : nat).

Global Instance event_eq_dec : EqDecision event.
Proof. solve_decision. Defined.

Section Kernel.
Context {V : Type} `{Scalar V}.
Local Open Scope scalar_scope.

Local Abbreviation vec := (list V).

(** *** [relax] *)

(** The body of the row loop of [relax], up to the value stored in
    [t[i]]. *)
Definition relax_row (M : matrix V) (rhs x : vec) (i : nat) : option V :=
  temp0 ← rhs !! i;
  jb ← row M !! i;
  je ← row M !! (i + 1);
  '(temp, diag) ← for_each (seq jb (je - jb))
      (λ j '(temp, diag),
         c ← col M !! j;
         v ← val M !! j;
         xc ← x !! c;
         Some (temp ⊖ v ⊗ xc, if decide (c = i) then v else diag))
      (temp0, vone);
  xi ← x !! i;
  Some (xi ⊕ omega ⊗ (temp ⊘ diag)).

(** [vector_copy(u, v)]: [std::swap] when both have the same type,
    otherwise [std::copy] of all of [u] to the front of [v], which must
    have room for it ([&v[0]] is read as the start of [v]). Returns the new
    [u] and the new [v]. *)
Definition vector_copy (same : bool) (w v : vec) : option (vec * vec) :=
  if same then Some (v, w)
  else if decide (length w ≤ length v)
       then Some (w, w ++ drop (length w) v)
       else None.

(** [same] tells whether [vector2] is [std::vector<value_t>]. *)
Definition relax (same : bool) (lvl : cpu V) (rhs x : vec)
    : option (cpu V * vec) :=
  let n := rows (A lvl) in
  t' ← for_each (seq 0 n)
         (λ i w, a ← relax_row (A lvl) rhs x i; store w i a) (t lvl);
  '(t'', x') ← vector_copy same t' x;
  Some (set_t lvl t'', x').

(** *** [resid] *)

(** [temp = rhs[i]; for (j ...) temp -= M.val[j] * x[M.col[j]]]: the row
    loop of [resid] and of the residual step of [cycle]. *)
Definition resid_row (M : matrix V) (rhs x : vec) (i : nat) : option V :=
  temp0 ← rhs !! i;
  jb ← row M !! i;
  je ← row M !! (i + 1);
  for_each (seq jb (je - jb))
    (λ j temp,
       c ← col M !! j;
       v ← val M !! j;
       xc ← x !! c;
       Some (temp ⊖ v ⊗ xc))
    temp0.

Definition resid (lvl : cpu V) (rhs x : vec) : option V :=
  let n := rows (A lvl) in
  norm ← for_each (seq 0 n)
           (λ i norm, temp ← resid_row (A lvl) rhs x i;
                      Some (norm ⊕ temp ⊗ temp))
           vzero;
  Some (vsqrt norm).

(** *** [cycle] *)

(** [temp = 0; for (j ...) temp += M.val[j] * w[M.col[j]]]: the row loop
    of the products with [R], [P] and [Ai]. *)
Definition gather_row (M : matrix V) (w : vec) (i : nat) : option V :=
  jb ← row M !! i;
  je ← row M !! (i + 1);
  for_each (seq jb (je - jb))
    (λ j temp,
       c ← col M !! j;
       v ← val M !! j;
       wc ← w !! c;
       Some (temp ⊕ v ⊗ wc))
    vzero.

(** [for (i = 0; i < k; ++i) lvl->relax(rhs, x)]. *)
Definition relax_loop (same : bool) (k r : nat) (rhs : vec)
    (s : cpu V * vec * list event) : option (cpu V * vec * list event) :=
  for_each (seq 0 k)
    (λ _ '(lvl, x, tr),
       '(lvl', x') ← relax same lvl rhs x;
       Some (lvl', x', tr ++ [EvRelax r]))
    s.

(** The body of the [ncycle] loop of [cycle] (lines 95 to 134) on the
    state (levels from [lvl], [x], trace). [rec] is the recursive call;
    [n] and [nc] are fixed before the loop. The events carry the length
    of the sequence they happen on, read off the lists at hand. *)
Definition cycle_body
    (rec : list (cpu V) → vec → vec
           → option (list (cpu V) * vec * list event))
    (same : bool) (prm : params) (n nc : nat) (rhs : vec)
    (s : list (cpu V) * vec * list event)
    : option (list (cpu V) * vec * list event) :=
  let '(lvls, x, tr) := s in
  let r := length lvls in
  match lvls with
  | lvl :: nxt :: rest =>
    '(lvl, x, tr) ← relax_loop same (npre prm) r rhs (lvl, x, tr);
    (* lvl->t = rhs - lvl->A * x *)
    t' ← for_each (seq 0 n)
           (λ i w, temp ← resid_row (A lvl) rhs x i; store w i temp)
           (t lvl);
    let lvl := set_t lvl t' in
    (* nxt->f = lvl->R * lvl->t *)
    f' ← for_each (seq 0 nc)
           (λ i w, temp ← gather_row (R lvl) (t lvl) i; store w i temp)
           (f nxt);
    let nxt := set_f nxt f' in
    (* std::fill(nxt->u.begin(), nxt->u.end(), 0) *)
    let nxt := set_u nxt (replicate (length (u nxt)) vzero) in
    let rc := length (nxt :: rest) in
    '(sub, u', trc) ← rec (nxt :: rest) (f nxt) (u nxt);
    match sub with
    | nxt :: rest =>
      let nxt := set_u nxt u' in
      (* x += lvl->P * nxt->u *)
      x ← for_each (seq 0 n)
            (λ i w, temp ← gather_row (P lvl) (u nxt) i;
                    wi ← w !! i;
                    store w i (wi ⊕ temp))
            x;
      let tr := tr ++ [EvResidual r; EvRestrict r; EvZero rc; EvCall rc]
                   ++ trc ++ [EvReturn (length sub); EvProlong r] in
      '(lvl, x, tr) ← relax_loop same (npost prm) r rhs (lvl, x, tr);
      Some (lvl :: nxt :: rest, x, tr)
    | [] => None
    end
  | _ => None
  end.

(** [cycle(lvl, end, prm, rhs, x)]. The iterator pair is the list [lvls]
    of the levels from [lvl] up to [end]; [d] is the distance between the
    two iterators, on which the recursion descends. [rhs] and [x] are
    passed by value and the new [x] is returned: in the recursive call
    they are [nxt->f] and [nxt->u], which the callee reaches only through
    its arguments, so the caller writes the returned [x] back into
    [nxt->u]. The recursive call has [vector2 = std::vector<value_t>],
    hence [same = true]. *)
Fixpoint cycle_rec (d : nat) (same : bool) (prm : params)
    (lvls : list (cpu V)) (rhs x : vec) {struct d}
    : option (list (cpu V) * vec * list event) :=
  match d, lvls with
  | S d', lvl :: rest =>
    let n := rows (A lvl) in
    match rest with
    | nxt :: _ =>
      (* nxt != end *)
      let nc := rows (A nxt) in
      for_each (seq 0 (ncycle prm))
        (λ _, cycle_body (cycle_rec d' true prm) same prm n nc rhs)
        (lvls, x, [])
    | [] =>
      x ← for_each (seq 0 n)
            (λ i w, temp ← gather_row (Ai lvl) rhs i; store w i temp)
            x;
      Some (lvls, x, [EvSolve (length lvls)])
    end
  | _, _ => None
  end.

Definition cycle (same : bool) (prm : params) (lvls : list (cpu V))
    (rhs x : vec) : option (list (cpu V) * vec * list event) :=
  cycle_rec (length lvls) same prm lvls rhs x.

End Kernel.

(** ** The mathematical reading of the kernel

    The definitions of this section follow the wording of the
    specification: rows as lists of (column, value) entries, sums over a
    row, the Jacobi sweep, the steps of one multigrid iteration. They are
    total; the results below relate them to the code on well-formed
    hierarchies. *)

Section Reading.
Context {V : Type} `{Scalar V}.
Local Open Scope scalar_scope.

Local Abbreviation vec := (list V).

(** [w[c]], with a dummy value outside [w]. *)
Definition vget (w : vec) (c : nat) : V := default vzero (w !! c).

(** The entries of row [i]: the pairs at positions
    [row[i] .. row[i+1] - 1] of the parallel arrays [col] and [val]. *)
Definition entries (M : matrix V) (i : nat) : list (nat * V) :=
  match row M !! i, row M !! (i + 1) with
  | Some jb, Some je => take (je - jb) (drop jb (zip (col M) (val M)))
  | _, _ => []
  end.

(** The sum of a list of scalars, accumulated from [0] in list order. *)
Definition vsum (l : vec) : V := fold_left vadd l vzero.

(** The product of an entry with the vector component of its column. *)
Definition term (w : vec) (e : nat * V) : V := e.2 ⊗ vget w e.1.

(** [(M w)[i]]: the sum of [M[i,j] * w[j]] over the entries of row [i]. *)
Definition row_dot (M : matrix V) (w : vec) (i : nat) : V :=
  vsum (map (term w) (entries M i)).

(** The same sum without the diagonal entries (column [i]). *)
Definition row_dot_offdiag (M : matrix V) (w : vec) (i : nat) : V :=
  vsum (map (term w) (filter (λ e, e.1 ≠ i) (entries M i))).

(** [rhs[i]] with the terms of row [i] subtracted one after the other; in a
    field this is [rhs[i] - (M x)[i]] (lemma [row_defect_dot]). *)
Definition row_defect (M : matrix V) (rhs x : vec) (i : nat) : V :=
  fold_left vsub (map (term x) (entries M i)) (vget rhs i).

(** The diagonal of row [i]: the value of its last entry in column [i], and
    [1] when the row has none. *)
Definition row_diag (M : matrix V) (i : nat) : V :=
  default vone (snd <$> last (filter (λ e, e.1 = i) (entries M i))).

(** One row of damped Jacobi, from the iterate [x] alone. *)
Definition jacobi_row (M : matrix V) (rhs x : vec) (i : nat) : V :=
  vget x i ⊕ omega ⊗ (row_defect M rhs x i ⊘ row_diag M i).

Definition jacobi (M : matrix V) (rhs x : vec) : vec :=
  map (jacobi_row M rhs x) (seq 0 (rows M)).

(** The update of row [i] as the specification words it (section 4.1): the
    diagonal entry left out of the subtracted sum. *)
Definition jacobi_row_excluding_diag (M : matrix V) (rhs x : vec) (i : nat)
    : V :=
  vget x i
  ⊕ omega ⊗ ((vget rhs i ⊖ row_dot_offdiag M x i) ⊘ row_diag M i).

(** The first [k] components of [M w]. *)
Definition mat_vec (M : matrix V) (k : nat) (w : vec) : vec :=
  map (row_dot M w) (seq 0 k).

(** The first [k] components of [rhs - M x], in the order of the code. *)
Definition defect (M : matrix V) (k : nat) (rhs x : vec) : vec :=
  map (row_defect M rhs x) (seq 0 k).

(** The first [k] components of [rhs - M x], as the specification writes
    them: [rhs[i] - (M x)[i]]. *)
Definition residual (M : matrix V) (k : nat) (rhs x : vec) : vec :=
  map (λ i, vget rhs i ⊖ row_dot M x i) (seq 0 k).

(** The sum of the squares of the components of [w]. *)
Definition sum_sq (w : vec) : V := vsum (map (λ a, a ⊗ a) w).

(** One sweep on the pair (level, iterate): the new iterate is [jacobi];
    the buffer [t] ends with the old iterate after a swap and with the new
    one after a copy. *)
Definition sweep (same : bool) (rhs : vec) (s : cpu V * vec) : cpu V * vec :=
  let '(lvl, x) := s in
  let y := jacobi (A lvl) rhs x in
  (set_t lvl (if same then x else y), y).

Definition set_head_u (lvls : list (cpu V)) (w : vec) : list (cpu V) :=
  match lvls with
  | nxt :: rest => set_u nxt w :: rest
  | [] => []
  end.

(** Steps a to g of section 4.3 on the state (levels, iterate, trace);
    [coarse] is the solver used on the coarser levels. *)
Definition two_grid
    (coarse : list (cpu V) → vec → vec → list (cpu V) * vec * list event)
    (same : bool) (prm : params) (n nc : nat) (rhs : vec)
    (s : list (cpu V) * vec * list event)
    : list (cpu V) * vec * list event :=
  let '(lvls, x, tr) := s in
  let r := length lvls in
  match lvls with
  | lvl :: nxt :: rest =>
    let '(lvl1, x1) := Nat.iter (npre prm) (sweep same rhs) (lvl, x) in
    let tv := defect (A lvl1) n rhs x1 in
    let fv := mat_vec (R lvl1) nc tv in
    let u0 := replicate (length (u nxt)) vzero in
    let rc := length (nxt :: rest) in
    let '(sub, u', trc) := coarse (set_u (set_f nxt fv) u0 :: rest) fv u0 in
    let x2 := map (λ i, vget x1 i ⊕ row_dot (P lvl1) u' i) (seq 0 n) in
    let '(lvl3, x3) :=
      Nat.iter (npost prm) (sweep same rhs) (set_t lvl1 tv, x2) in
    (lvl3 :: set_head_u sub u', x3,
     tr ++ replicate (npre prm) (EvRelax r)
        ++ [EvResidual r; EvRestrict r; EvZero rc; EvCall rc]
        ++ trc ++ [EvReturn (length sub); EvProlong r]
        ++ replicate (npost prm) (EvRelax r))
  | _ => s
  end.

(** The whole cycle on [d] levels. *)
Fixpoint vcycle (d : nat) (same : bool) (prm : params)
    (lvls : list (cpu V)) (rhs x : vec)
    : list (cpu V) * vec * list event :=
  match d, lvls with
  | S d', lvl :: nxt :: _ =>
    Nat.iter (ncycle prm)
      (two_grid (vcycle d' true prm) same prm
         (rows (A lvl)) (rows (A nxt)) rhs)
      (lvls, x, [])
  | _, [lvl] => (lvls, mat_vec (Ai lvl) (rows (A lvl)) rhs, [EvSolve 1])
  | _, _ => (lvls, x, [])
  end.

(** One iteration of the loop of [cycle] in the words of section 4.3,
    steps a to g, with the recursive call of step e made by [cycle]
    itself. *)
Definition cycle_iteration (same : bool) (prm : params) (rhs : vec)
    (s : list (cpu V) * vec * list event)
    : option (list (cpu V) * vec * list event) :=
  let '(lvls, x, tr) := s in
  let r := length lvls in
  match lvls with
  | lvl :: nxt :: rest =>
    let n := rows (A lvl) in
    let nc := rows (A nxt) in
    (* a. npre relaxation sweeps on (rhs, x) *)
    let '(lvl1, x1) := Nat.iter (npre prm) (sweep same rhs) (lvl, x) in
    (* b. t = rhs - A x on the n fine rows *)
    let tv := residual (A lvl) n rhs x1 in
    (* c. nxt.f = R t on the nc coarse rows *)
    let fv := mat_vec (R lvl) nc tv in
    (* d. nxt.u = 0 *)
    let u0 := replicate nc vzero in
    (* e. cycle(nxt, end, prm, nxt.f, nxt.u) *)
    let rc := length (nxt :: rest) in
    '(sub, u', trc) ← cycle true prm (set_u (set_f nxt fv) u0 :: rest) fv u0;
    (* f. x += P nxt.u on the n fine rows *)
    let x2 := map (λ i, vget x1 i ⊕ row_dot (P lvl) u' i) (seq 0 n) in
    (* g. npost relaxation sweeps on (rhs, x) *)
    let '(lvl3, x3) :=
      Nat.iter (npost prm) (sweep same rhs) (set_t lvl1 tv, x2) in
    Some (lvl3 :: set_head_u sub u', x3,
          tr ++ replicate (npre prm) (EvRelax r)
             ++ [EvResidual r; EvRestrict r; EvZero rc; EvCall rc]
             ++ trc ++ [EvReturn (length sub); EvProlong r]
             ++ replicate (npost prm) (EvRelax r))
  | _ => None
  end.

(** *** Well-formed dimensions *)

(** Every access of the row loop of row [i] is in range, and the columns of
    the row index a vector of [ncols] components. *)
Definition row_ok (M : matrix V) (ncols i : nat) : bool :=
  match row M !! i, row M !! (i + 1) with
  | Some jb, Some je =>
    forallb (λ j, match col M !! j, val M !! j with
                  | Some c, Some _ => bool_decide (c < ncols)
                  | _, _ => false
                  end)
            (seq jb (je - jb))
  | _, _ => false
  end.

Definition matrix_ok (M : matrix V) (k ncols : nat) : bool :=
  forallb (row_ok M ncols) (seq 0 k).

(** What [relax] needs of a level and of its two arguments. *)
Definition relax_ok (lvl : cpu V) (rhs x : vec) : bool :=
  let n := rows (A lvl) in
  matrix_ok (A lvl) n n && bool_decide (length (t lvl) = n)
  && bool_decide (length rhs = n) && bool_decide (length x = n).

(** The levels from [lvl] to [end]: the last one has a usable [Ai]; every
    other one has [A], [R], [P] and [t] of its size and a successor whose
    [u] and [f] have the coarse size. *)
Fixpoint hier_ok (lvls : list (cpu V)) : bool :=
  match lvls with
  | [] => false
  | lvl :: rest =>
    let n := rows (A lvl) in
    match rest with
    | [] => matrix_ok (Ai lvl) n n
    | nxt :: _ =>
      let nc := rows (A nxt) in
      matrix_ok (A lvl) n n && matrix_ok (R lvl) nc n
      && matrix_ok (P lvl) n nc && bool_decide (length (t lvl) = n)
      && bool_decide (length (u nxt) = nc)
      && bool_decide (length (f nxt) = nc)
      && hier_ok rest
    end
  end.

(** The arguments [rhs] and [x] have the size of the first level. *)
Definition args_ok (lvls : list (cpu V)) (rhs x : vec) : bool :=
  match lvls with
  | lvl :: _ =>
    bool_decide (length rhs = rows (A lvl))
    && bool_decide (length x = rows (A lvl))
  | [] => false
  end.

(** Two levels with the same operators and scratch vectors of the same
    sizes; two hierarchies of such levels. *)
Definition level_shape (l l' : cpu V) : Prop :=
  A l' = A l ∧ P l' = P l ∧ R l' = R l ∧ Ai l' = Ai l
  ∧ length (u l') = length (u l) ∧ length (f l') = length (f l)
  ∧ length (t l') = length (t l).

Definition hier_shape (lvls lvls' : list (cpu V)) : Prop :=
  Forall2 level_shape lvls lvls'.

(** *** Reading the trace *)

Definition is_restrict (e : event) : bool :=
  match e with EvRestrict _ => true | _ => false end.
Definition is_prolong (e : event) : bool :=
  match e with EvProlong _ => true | _ => false end.
Definition is_solve (e : event) : bool :=
  match e with EvSolve _ => true | _ => false end.

Definition count_if (p : event → bool) (tr : list event) : nat :=
  length (filter (λ e, p e = true) tr).

Definition count_ev (e : event) (tr : list event) : nat :=
  count_if (λ e', bool_decide (e' = e)) tr.

(** The events of one cycle on [d] levels. *)
Fixpoint cycle_trace (prm : params) (d : nat) : list event :=
  match d with
  | 0 => []
  | S d' =>
    match d' with
    | 0 => [EvSolve 1]
    | S _ =>
      mjoin (replicate (ncycle prm)
        (replicate (npre prm) (EvRelax d)
         ++ [EvResidual d; EvRestrict d; EvZero d'; EvCall d']
         ++ cycle_trace prm d'
         ++ [EvReturn d'; EvProlong d]
         ++ replicate (npost prm) (EvRelax d)))
    end
  end.

(** Follows the calls and returns of a trace from a sequence of [cur]
    levels with [pending] calls not yet returned. A call must be on a
    sequence one level shorter than the current one, a return must come
    back from the current one, and a direct solve must happen on a sequence
    of one level. Yields the length of the sequence the trace ends on, the
    number of calls then pending, and the number of calls that were pending
    at each direct solve. *)
Fixpoint descend (cur pending : nat) (tr : list event)
    : option (nat * nat * list nat) :=
  match tr with
  | [] => Some (cur, pending, [])
  | EvCall r :: tr' =>
    if decide (cur = S r) then descend r (S pending) tr' else None
  | EvReturn r :: tr' =>
    if decide (cur = r) then descend (S r) (pending - 1) tr' else None
  | EvSolve r :: tr' =>
    if decide (cur = 1 ∧ r = 1)
    then '(c, p, ds) ← descend cur pending tr'; Some (c, p, pending :: ds)
    else None
  | _ :: tr' => descend cur pending tr'
  end.

End Reading.


(** ** Exact arithmetic

    The rationals as an instance of [Scalar], on which the kernel can be
    run. The square root is exact on squares of rationals and rounds the
    numerator and the denominator down otherwise. *)

Definition Qc_sqrt (a : Qc) : Qc :=
  Q2Qc (Z.sqrt (Qnum a) # Pos.sqrt (Qden a)).

Global Instance Qc_scalar : Scalar Qc := {|
  vzero := Q2Qc 0;
  vone := Q2Qc 1;
  vlit := Q2Qc;
  vadd := Qcplus;
  vsub := Qcminus;
  vmul := Qcmult;
  vdiv := Qcdiv;
  vsqrt := Qc_sqrt
|}.

(** The integer [z] as a rational. *)
Definition qz (z : Z) : Qc := Q2Qc (inject_Z z).

(** A matrix without rows, for the operators a level does not have. *)
Definition no_matrix : matrix Qc := Matrix 0 [0] [] [].

(** The 1x1 matrix [(2)] and a level that smooths with it. *)
Definition m_two : matrix Qc := Matrix 1 [0; 1] [0] [qz 2].
Definition lvl_two : cpu Qc :=
  Cpu m_two no_matrix no_matrix no_matrix [] [] [qz 0].

(** The 2x2 matrix with rows [(2 -1)] and [(-1 2)]. *)
Definition m_fine : matrix Qc :=
  Matrix 2 [0; 2; 4] [0; 1; 0; 1] [qz 2; qz (-1); qz (-1); qz 2].

(** The 2x2 matrix with rows [(0 1)] and [(1 0)]: no diagonal entry. *)
Definition m_swap : matrix Qc := Matrix 2 [0; 1; 2] [1; 0] [qz 1; qz 1].
Definition lvl_swap : cpu Qc :=
  Cpu m_swap no_matrix no_matrix no_matrix [] [] [qz 0; qz 0].

(** Transfer operators between two fine unknowns and one coarse unknown:
    [p_fine] is the column [(1 1)], [r_fine] the row [(1 1)]; and between
    one unknown and one unknown: the identity [m_one]. *)
Definition p_fine : matrix Qc := Matrix 2 [0; 1; 2] [0; 0] [qz 1; qz 1].
Definition r_fine : matrix Qc := Matrix 1 [0; 2] [0; 1] [qz 1; qz 1].
Definition m_one : matrix Qc := Matrix 1 [0; 1] [0] [qz 1].
Definition m_half : matrix Qc := Matrix 1 [0; 1] [0] [Q2Qc (1 # 2)].

(** Three levels: two unknowns, one unknown, and a last level with the
    inverse [(1/2)] of its matrix [(2)]. *)
Definition lvl_fine : cpu Qc :=
  Cpu m_fine p_fine r_fine no_matrix [] [] [qz 0; qz 0].
Definition lvl_mid : cpu Qc :=
  Cpu m_two m_one m_one no_matrix [qz 0] [qz 0] [qz 0].
Definition lvl_last : cpu Qc :=
  Cpu m_two no_matrix no_matrix m_half [qz 0] [qz 0] [qz 0].

Definition hier3 : list (cpu Qc) := [lvl_fine; lvl_mid; lvl_last].

(** ** The constructors of [cpu] *)

Section Constructors.
Context {V : Type} `{Scalar V}.

(** Modelled from the spec: the default-constructed [sparse::matrix] of
    [amgcl/spmat.hpp], which fills the operator members a constructor does
    not initialise. *)
Variable matrix_default : matrix V.

(** [cpu(matrix &&a, matrix &&p, matrix &&r, bool has_parent = true)]: the
    operators are moved into [A], [P] and [R]; [u] and [f] are resized to
    [A.rows] only with [has_parent]; [t] always is. [resize] fills with
    [value_t()], which is [0]. *)
Definition cpu_interior (a p r : matrix V) (has_parent : bool) : cpu V :=
  let lvl := Cpu a p r matrix_default [] [] [] in
  let lvl :=
    if has_parent
    then set_f (set_u lvl (replicate (rows (A lvl)) vzero))
               (replicate (rows (A lvl)) vzero)
    else lvl in
  set_t lvl (replicate (rows (A lvl)) vzero).

(** [cpu(matrix &&a, matrix &&ai)]: the last level, with [u], [f] and [t]
    of [A.rows] zeros. *)
Definition cpu_terminal (a ai : matrix V) : cpu V :=
  Cpu a matrix_default matrix_default ai
    (replicate (rows a) vzero) (replicate (rows a) vzero)
    (replicate (rows a) vzero).

End Constructors.

(** ** Running a trace

    The events of a trace read as instructions: each one names a step of
    [cycle] and [run_event] carries that step out, with the loops of the
    source, on the sequence it is labelled with. A machine state holds the
    pending callers (their level, [rhs] and [x]), the levels from the
    current one on, and the current [rhs] and [x]. *)

Section Replay.
Context {V : Type} `{Scalar V}.
Local Open Scope scalar_scope.

Local Abbreviation vec := (list V).
Local Abbreviation machine :=
  (list (cpu V * list V * list V) * list (cpu V) * list V * list V)%type.

(** The commit path of [relax]: the caller's [vector2] in the outermost
    call, [std::vector<value_t>] in the recursive ones. *)
Definition commit (same : bool) (stack : list (cpu V * vec * vec)) : bool :=
  match stack with
  | [] => same
  | _ :: _ => true
  end.

Definition run_event (same : bool) (e : event) (m : machine)
    : option machine :=
  let '(stack, lvls, rhs, x) := m in
  match e, lvls with
  | EvRelax r, lvl :: rest =>
    (* lvl->relax(rhs, x) *)
    if decide (r = length lvls) then
      '(lvl', x') ← relax (commit same stack) lvl rhs x;
      Some (stack, lvl' :: rest, rhs, x')
    else None
  | EvResidual r, lvl :: rest =>
    (* lvl->t = rhs - lvl->A * x *)
    if decide (r = length lvls) then
      t' ← for_each (seq 0 (rows (A lvl)))
             (λ i w, temp ← resid_row (A lvl) rhs x i; store w i temp)
             (t lvl);
      Some (stack, set_t lvl t' :: rest, rhs, x)
    else None
  | EvRestrict r, lvl :: nxt :: rest =>
    (* nxt->f = lvl->R * lvl->t *)
    if decide (r = length lvls) then
      f' ← for_each (seq 0 (rows (A nxt)))
             (λ i w, temp ← gather_row (R lvl) (t lvl) i; store w i temp)
             (f nxt);
      Some (stack, lvl :: set_f nxt f' :: rest, rhs, x)
    else None
  | EvZero r, lvl :: nxt :: rest =>
    (* std::fill(nxt->u.begin(), nxt->u.end(), 0) *)
    if decide (r = length (nxt :: rest)) then
      Some (stack,
            lvl :: set_u nxt (replicate (length (u nxt)) vzero) :: rest,
            rhs, x)
    else None
  | EvCall r, lvl :: nxt :: rest =>
    (* cycle(nxt, end, prm, nxt->f, nxt->u): enter *)
    if decide (r = length (nxt :: rest)) then
      Some ((lvl, rhs, x) :: stack, nxt :: rest, f nxt, u nxt)
    else None
  | EvReturn r, nxt :: rest =>
    (* back in the caller; the callee's x is nxt->u *)
    if decide (r = length lvls) then
      match stack with
      | (lvl, rhs0, x0) :: stack' =>
        Some (stack', lvl :: set_u nxt x :: rest, rhs0, x0)
      | [] => None
      end
    else None
  | EvProlong r, lvl :: nxt :: rest =>
    (* x += lvl->P * nxt->u *)
    if decide (r = length lvls) then
      x' ← for_each (seq 0 (rows (A lvl)))
             (λ i w, temp ← gather_row (P lvl) (u nxt) i;
                     wi ← w !! i;
                     store w i (wi ⊕ temp))
             x;
      Some (stack, lvl :: nxt :: rest, rhs, x')
    else None
  | EvSolve r, lvl :: rest =>
    (* x = lvl->Ai * rhs, on the last level *)
    if decide (r = length lvls ∧ rest = []) then
      x' ← for_each (seq 0 (rows (A lvl)))
             (λ i w, temp ← gather_row (Ai lvl) rhs i; store w i temp)
             x;
      Some (stack, lvls, rhs, x')
    else None
  | _, _ => None
  end.

Fixpoint replay (same : bool) (tr : list event) (m : machine)
    : option machine :=
  match tr with
  | [] => Some m
  | e :: tr' => m' ← run_event same e m; replay same tr' m'
  end.

(** The levels keep their system matrices. *)
Definition same_A (lvls lvls' : list (cpu V)) : Prop :=
  Forall2 (λ l l', A l' = A l) lvls lvls'.

(** The diagonal that [relax] divides by is not zero on any row. *)
Definition diag_nonzero (lvl : cpu V) : Prop :=
  ∀ i, i < rows (A lvl) → row_diag (A lvl) i ≠ vzero.

(** [diag_nonzero] on the levels that [cycle] smooths: all but the
    last. *)
Fixpoint smoothed_nonzero (lvls : list (cpu V)) : Prop :=
  match lvls with
  | lvl :: rest =>
    match rest with
    | [] => True
    | _ :: _ => diag_nonzero lvl ∧ smoothed_nonzero rest
    end
  | [] => True
  end.

End Replay.

(** The number of times one call of [cycle] runs the loop body on the
    levels above the last [k]: [n + n^2 + ... + n^k] for [ncycle = n]. *)
Fixpoint descents (n k : nat) : nat :=
  match k with
  | 0 => 0
  | S k' => n * (1 + descents n k')
  end.

Definition is_relax (e : event) : bool :=
  match e with EvRelax _ => true | _ => false end.

(** The first and the last level of [hier3] as the constructors build
    them, the first one without parent. *)
Definition built_fine : cpu Qc :=
  cpu_interior no_matrix m_fine p_fine r_fine false.
Definition built_last : cpu Qc := cpu_terminal no_matrix m_two m_half.
(** * Results *)

(** ** Loops *)

Section LoopFacts.
Context {St : Type}.
Implicit Types (body : nat → St → option St) (s : St).

Lemma for_each_app js1 js2 body s :
  for_each (js1 ++ js2) body s
  = (s' ← for_each js1 body s; for_each js2 body s').
Proof.
  revert s. induction js1 as [|j js1 IH]; intros s; simpl; [done|].
  destruct (body j s) as [s1|]; simpl; [apply IH|done].
Qed.

Lemma for_each_ext js body1 body2 s :
  (∀ j s', j ∈ js → body1 j s' = body2 j s') →
  for_each js body1 s = for_each js body2 s.
Proof.
  revert s. induction js as [|j js IH]; intros s Hb; simpl; [done|].
  rewrite (Hb j s) by left.
  destruct (body2 j s) as [s1|]; simpl; [|done].
  apply IH. intros j' s' Hj. apply Hb. by right.
Qed.

(** A loop whose body succeeds on every state that satisfies an invariant
    computes a plain fold. *)
Lemma for_each_fold (I : St → Prop) js body (g : St → nat → St) s :
  I s →
  (∀ j s', j ∈ js → I s' → body j s' = Some (g s' j) ∧ I (g s' j)) →
  for_each js body s = Some (fold_left g js s) ∧ I (fold_left g js s).
Proof.
  revert s. induction js as [|j js IH]; intros s Hs Hb; simpl; [done|].
  destruct (Hb j s) as [-> Hs']; [by left|done|]. simpl.
  apply IH; [done|]. intros j' s' Hj. apply Hb. by right.
Qed.

End LoopFacts.

(** ** The row loops *)

Section RowFacts.
Context {V : Type} `{Scalar V}.
Local Open Scope scalar_scope.
Implicit Types (M : matrix V) (w x rhs : list V).

Lemma vget_lookup w c a : w !! c = Some a → vget w c = a.
Proof. unfold vget. by intros ->. Qed.

Lemma lookup_vget w c : c < length w → w !! c = Some (vget w c).
Proof.
  intros Hc. destruct (lookup_lt_is_Some_2 w c Hc) as [a Ha].
  by rewrite Ha, (vget_lookup _ _ _ Ha).
Qed.

(** The loop over the positions [jb .. jb + k - 1] of [col] and [val] is a
    fold over the corresponding slice of entries. *)
Lemma for_each_slice {St : Type} M ncols w (g : St → nat * V → V → St) k :
  ∀ jb (s : St),
  ncols ≤ length w →
  forallb (λ j, match col M !! j, val M !! j with
                | Some c, Some _ => bool_decide (c < ncols)
                | _, _ => false
                end) (seq jb k) = true →
  for_each (seq jb k)
    (λ j s, c ← col M !! j; v ← val M !! j; wc ← w !! c;
            Some (g s (c, v) wc))
    s
  = Some (fold_left (λ s e, g s e (vget w e.1))
            (take k (drop jb (zip (col M) (val M)))) s).
Proof.
  induction k as [|k IH]; intros jb s Hw Hok; simpl in *; [done|].
  apply andb_prop in Hok as [Hj Hok].
  destruct (col M !! jb) as [c|] eqn:Hc; [|done].
  destruct (val M !! jb) as [v|] eqn:Hv; [|done].
  apply bool_decide_eq_true in Hj.
  assert (Hz : zip (col M) (val M) !! jb = Some (c, v)).
  { rewrite lookup_zip_with, Hc. simpl. by rewrite Hv. }
  rewrite (drop_S _ _ _ Hz). simpl.
  rewrite (lookup_vget w c) by lia. simpl.
  by apply IH.
Qed.

Lemma row_ok_inv M ncols i :
  row_ok M ncols i = true →
  ∃ jb je, row M !! i = Some jb ∧ row M !! (i + 1) = Some je
    ∧ forallb (λ j, match col M !! j, val M !! j with
                    | Some c, Some _ => bool_decide (c < ncols)
                    | _, _ => false
                    end) (seq jb (je - jb)) = true
    ∧ entries M i = take (je - jb) (drop jb (zip (col M) (val M))).
Proof.
  unfold row_ok, entries.
  destruct (row M !! i) as [jb|]; [|done].
  destruct (row M !! (i + 1)) as [je|]; [|done].
  intros Hok. by exists jb, je.
Qed.

Lemma matrix_ok_row M k ncols i :
  matrix_ok M k ncols = true → i < k → row_ok M ncols i = true.
Proof.
  unfold matrix_ok. rewrite forallb_forall. intros Hok Hi.
  apply Hok, in_seq. lia.
Qed.

Lemma fold_left_map_fuse {B C D : Type} (g : D → C → D) (h : B → C) l s :
  fold_left g (map h l) s = fold_left (λ s e, g s (h e)) l s.
Proof.
  revert s. induction l as [|e l IH]; intros s; simpl; [done|apply IH].
Qed.

Lemma gather_row_ok M ncols w i :
  row_ok M ncols i = true → ncols ≤ length w →
  gather_row M w i = Some (row_dot M w i).
Proof.
  intros (jb & je & Hb & He & Hok & Hent)%row_ok_inv Hw.
  unfold gather_row, row_dot, vsum. rewrite Hb, He, Hent. simpl.
  rewrite fold_left_map_fuse.
  exact (for_each_slice M ncols w (λ s e wc, s ⊕ e.2 ⊗ wc) _ jb vzero
           Hw Hok).
Qed.

Lemma resid_row_ok M ncols rhs x i :
  row_ok M ncols i = true → ncols ≤ length x → i < length rhs →
  resid_row M rhs x i = Some (row_defect M rhs x i).
Proof.
  intros (jb & je & Hb & He & Hok & Hent)%row_ok_inv Hx Hi.
  unfold resid_row, row_defect. rewrite (lookup_vget rhs i Hi), Hb, He, Hent.
  simpl. rewrite fold_left_map_fuse.
  exact (for_each_slice M ncols x (λ s e wc, s ⊖ e.2 ⊗ wc) _ jb _ Hx Hok).
Qed.

(** The pair (temp, diag) after the loop of [relax] over a list of
    entries. *)
Lemma relax_fold x i (l : list (nat * V)) a d :
  fold_left (λ (s : V * V) e,
               (s.1 ⊖ e.2 ⊗ vget x e.1,
                if decide (e.1 = i) then e.2 else s.2))
            l (a, d)
  = (fold_left vsub (map (term x) l) a,
     default d (snd <$> last (filter (λ e, e.1 = i) l))).
Proof.
  revert a d. induction l as [|e l IH]; intros a d; simpl; [done|].
  rewrite IH. f_equal. rewrite filter_cons.
  destruct (decide (e.1 = i)) as [Hei|Hei]; [|done].
  rewrite last_cons. by destruct (last (filter _ l)).
Qed.

Lemma relax_row_ok M ncols rhs x i :
  row_ok M ncols i = true → ncols ≤ length x → i < length rhs →
  i < length x →
  relax_row M rhs x i = Some (jacobi_row M rhs x i).
Proof.
  intros (jb & je & Hb & He & Hok & Hent)%row_ok_inv Hx Hi Hix.
  unfold relax_row, jacobi_row, row_defect, row_diag.
  rewrite (lookup_vget rhs i Hi), Hb, He, Hent. simpl.
  erewrite for_each_ext; last first.
  { intros j [temp diag] _.
    instantiate (1 := λ j s, c ← col M !! j; v ← val M !! j; wc ← x !! c;
      Some ((λ (s : V * V) (e : nat * V) wc,
               (s.1 ⊖ e.2 ⊗ wc, if decide (e.1 = i) then e.2 else s.2))
              s (c, v) wc)).
    reflexivity. }
  rewrite (for_each_slice M ncols x _ _ jb _ Hx Hok). simpl.
  rewrite relax_fold. simpl. by rewrite (lookup_vget x i Hix).
Qed.

(** A loop that stores one value per index rewrites a prefix of the
    vector; the value of index [i] may read the vector as the loop left
    it. *)
Lemma for_each_store n (g : nat → list V → option V) (g' : nat → V) w :
  n ≤ length w →
  (∀ i, i < n → g i (map g' (seq 0 i) ++ drop i w) = Some (g' i)) →
  for_each (seq 0 n) (λ i w', a ← g i w'; store w' i a) w
  = Some (map g' (seq 0 n) ++ drop n w).
Proof.
  induction n as [|n IH]; intros Hn Hg.
  { simpl. by rewrite drop_0. }
  rewrite seq_S, for_each_app, IH by (try lia; intros; apply Hg; lia).
  simpl. rewrite Hg by lia. simpl. unfold store.
  rewrite length_app, length_map, length_seq, length_drop.
  rewrite decide_True by lia. f_equal.
  destruct (lookup_lt_is_Some_2 w n) as [a Ha]; [lia|].
  rewrite (drop_S _ _ _ Ha), map_app. simpl.
  rewrite insert_app_r_alt by (rewrite length_map, length_seq; lia).
  rewrite length_map, length_seq, Nat.sub_diag. simpl.
  by rewrite <- app_assoc.
Qed.

End RowFacts.

(** ** The smoother *)

Section SweepFacts.
Context {V : Type} `{Scalar V}.
Local Open Scope scalar_scope.
Implicit Types (lvl : cpu V) (x rhs : list V).

Lemma relax_ok_inv lvl rhs x :
  relax_ok lvl rhs x = true →
  matrix_ok (A lvl) (rows (A lvl)) (rows (A lvl)) = true
  ∧ length (t lvl) = rows (A lvl) ∧ length rhs = rows (A lvl)
  ∧ length x = rows (A lvl).
Proof.
  unfold relax_ok. rewrite !andb_true_iff, !bool_decide_eq_true. tauto.
Qed.

Lemma relax_ok_intro lvl rhs x :
  matrix_ok (A lvl) (rows (A lvl)) (rows (A lvl)) = true →
  length (t lvl) = rows (A lvl) → length rhs = rows (A lvl) →
  length x = rows (A lvl) →
  relax_ok lvl rhs x = true.
Proof.
  unfold relax_ok. rewrite !andb_true_iff, !bool_decide_eq_true. tauto.
Qed.

Lemma length_jacobi (M : matrix V) rhs x : length (jacobi M rhs x) = rows M.
Proof. unfold jacobi. by rewrite length_map, length_seq. Qed.

(** The row loop of [relax] fills [t] with the Jacobi update of every
    row. *)
Lemma relax_rows_ok lvl rhs x :
  relax_ok lvl rhs x = true →
  for_each (seq 0 (rows (A lvl)))
    (λ i w, a ← relax_row (A lvl) rhs x i; store w i a) (t lvl)
  = Some (jacobi (A lvl) rhs x).
Proof.
  intros (HA & Ht & Hrhs & Hx)%relax_ok_inv.
  rewrite (for_each_store _ (λ i _, relax_row (A lvl) rhs x i)
             (jacobi_row (A lvl) rhs x)) by
    (try lia; intros i Hi;
     apply (relax_row_ok _ (rows (A lvl))); try lia;
     by apply (matrix_ok_row _ (rows (A lvl)))).
  rewrite drop_ge by lia. by rewrite app_nil_r.
Qed.

Lemma relax_sweep same lvl rhs x :
  relax_ok lvl rhs x = true →
  relax same lvl rhs x = Some (sweep same rhs (lvl, x)).
Proof.
  intros Hok. unfold relax. rewrite relax_rows_ok by done. simpl.
  apply relax_ok_inv in Hok as (HA & Ht & Hrhs & Hx).
  unfold vector_copy. destruct same; simpl; [done|].
  rewrite length_jacobi, decide_True by lia. simpl.
  rewrite drop_ge by lia. by rewrite app_nil_r.
Qed.

Lemma relax_ok_set_t lvl rhs x w x' :
  relax_ok lvl rhs x = true → length w = rows (A lvl) →
  length x' = rows (A lvl) →
  relax_ok (set_t lvl w) rhs x' = true.
Proof.
  intros (HA & Ht & Hrhs & Hx)%relax_ok_inv Hw Hx'.
  by apply relax_ok_intro.
Qed.

(** Sweeps only change the buffer [t] of the level, and keep all sizes. *)
Lemma sweeps_inv same k lvl rhs x lvl' x' :
  relax_ok lvl rhs x = true →
  Nat.iter k (sweep same rhs) (lvl, x) = (lvl', x') →
  ∃ w, lvl' = set_t lvl w ∧ length w = rows (A lvl)
       ∧ length x' = rows (A lvl).
Proof.
  intros Hok. pose proof Hok as (HA & Ht & Hrhs & Hx)%relax_ok_inv.
  revert lvl' x'. induction k as [|k IH]; intros lvl' x'; simpl.
  { intros [= <- <-]. exists (t lvl). by destruct lvl. }
  destruct (Nat.iter k (sweep same rhs) (lvl, x)) as [l1 x1] eqn:E.
  destruct (IH l1 x1 eq_refl) as (w & -> & Hw & Hx1).
  intros [= <- <-]. simpl. eexists. split; [reflexivity|].
  split; [|apply length_jacobi].
  destruct same; [done|apply length_jacobi].
Qed.

Lemma relax_loop_ok same k r rhs lvl x tr :
  relax_ok lvl rhs x = true →
  relax_loop same k r rhs (lvl, x, tr)
  = Some (Nat.iter k (sweep same rhs) (lvl, x), tr ++ replicate k (EvRelax r)).
Proof.
  intros Hok. unfold relax_loop. induction k as [|k IH].
  { simpl. by rewrite app_nil_r. }
  rewrite seq_S, for_each_app, IH. simpl.
  destruct (Nat.iter k (sweep same rhs) (lvl, x)) as [l1 x1] eqn:E.
  destruct (sweeps_inv _ _ _ _ _ _ _ Hok E) as (w & -> & Hw & Hx1).
  rewrite (relax_sweep _ _ _ _ (relax_ok_set_t _ _ _ _ _ Hok Hw Hx1)). simpl.
  by rewrite <- app_assoc, replicate_cons_app.
Qed.

End SweepFacts.

(** ** Shapes *)

Section ShapeFacts.
Context {V : Type} `{Scalar V}.
Local Open Scope scalar_scope.
Implicit Types (lvl nxt : cpu V) (lvls sub rest : list (cpu V)).
Implicit Types (x rhs w : list V).

Lemma level_shape_refl lvl : level_shape lvl lvl.
Proof. by repeat split. Qed.

Lemma level_shape_trans (l1 l2 l3 : cpu V) :
  level_shape l1 l2 → level_shape l2 l3 → level_shape l1 l3.
Proof.
  unfold level_shape. intros ? ?. destruct_and!. repeat split; congruence.
Qed.

Lemma hier_shape_refl lvls : hier_shape lvls lvls.
Proof. induction lvls; constructor; [apply level_shape_refl|done]. Qed.

Lemma hier_shape_trans (l1 l2 l3 : list (cpu V)) :
  hier_shape l1 l2 → hier_shape l2 l3 → hier_shape l1 l3.
Proof.
  unfold hier_shape. intros H12. revert l3.
  induction H12 as [|a b l1 l2 Hab _ IH]; intros l3 H23;
    inversion H23 as [|b' c l2' l3' Hbc H23']; subst; constructor.
  - by apply (level_shape_trans a b c).
  - by apply IH.
Qed.

Lemma hier_shape_length (l1 l2 : list (cpu V)) :
  hier_shape l1 l2 → length l1 = length l2.
Proof. apply Forall2_length. Qed.

Lemma hier_ok_step lvl nxt rest :
  hier_ok (lvl :: nxt :: rest) = true ↔
  matrix_ok (A lvl) (rows (A lvl)) (rows (A lvl)) = true
  ∧ matrix_ok (R lvl) (rows (A nxt)) (rows (A lvl)) = true
  ∧ matrix_ok (P lvl) (rows (A lvl)) (rows (A nxt)) = true
  ∧ length (t lvl) = rows (A lvl)
  ∧ length (u nxt) = rows (A nxt)
  ∧ length (f nxt) = rows (A nxt)
  ∧ hier_ok (nxt :: rest) = true.
Proof.
  change (hier_ok (lvl :: nxt :: rest)) with
    (matrix_ok (A lvl) (rows (A lvl)) (rows (A lvl))
     && matrix_ok (R lvl) (rows (A nxt)) (rows (A lvl))
     && matrix_ok (P lvl) (rows (A lvl)) (rows (A nxt))
     && bool_decide (length (t lvl) = rows (A lvl))
     && bool_decide (length (u nxt) = rows (A nxt))
     && bool_decide (length (f nxt) = rows (A nxt))
     && hier_ok (nxt :: rest)).
  rewrite !andb_true_iff, !bool_decide_eq_true. tauto.
Qed.

Lemma args_ok_cons lvl rest rhs x :
  args_ok (lvl :: rest) rhs x = true ↔
  length rhs = rows (A lvl) ∧ length x = rows (A lvl).
Proof.
  simpl. by rewrite andb_true_iff, !bool_decide_eq_true.
Qed.

(** Well-formedness only looks at the shape. *)
Lemma hier_ok_shape lvls (lvls' : list (cpu V)) :
  hier_shape lvls lvls' → hier_ok lvls = true → hier_ok lvls' = true.
Proof.
  intros Hsh. induction Hsh as [|lvl lvl' rest rest' Hl Hr IH]; [done|].
  destruct Hr as [|nxt nxt' rest rest' Hn Hr].
  { simpl. destruct Hl as (-> & _ & _ & -> & _). done. }
  rewrite !hier_ok_step.
  destruct Hl as (-> & -> & -> & _ & _ & _ & ->).
  pose proof Hn as (-> & _ & _ & _ & -> & -> & _).
  intros (? & ? & ? & ? & ? & ? & ?). repeat split; try done.
  by apply IH.
Qed.

Lemma length_defect (M : matrix V) k rhs x : length (defect M k rhs x) = k.
Proof. unfold defect. by rewrite length_map, length_seq. Qed.

Lemma length_mat_vec (M : matrix V) k w : length (mat_vec M k w) = k.
Proof. unfold mat_vec. by rewrite length_map, length_seq. Qed.

End ShapeFacts.

(** ** The vector loops of [cycle] *)

Section ProductFacts.
Context {V : Type} `{Scalar V}.
Local Open Scope scalar_scope.
Implicit Types (M : matrix V) (x rhs w v : list V).

(** [w = rhs - M x] on the first [k] rows. *)
Lemma defect_loop_ok M k ncols rhs x w :
  matrix_ok M k ncols = true → ncols ≤ length x → k ≤ length rhs →
  length w = k →
  for_each (seq 0 k)
    (λ i w', temp ← resid_row M rhs x i; store w' i temp) w
  = Some (defect M k rhs x).
Proof.
  intros HM Hx Hrhs Hw.
  rewrite (for_each_store _ (λ i _, resid_row M rhs x i)
             (row_defect M rhs x)) by
    (try lia; intros i Hi; apply (resid_row_ok _ ncols); try lia;
     by apply (matrix_ok_row _ k)).
  rewrite drop_ge by lia. by rewrite app_nil_r.
Qed.

(** [w = M v] on the first [k] rows. *)
Lemma mat_vec_loop_ok M k ncols v w :
  matrix_ok M k ncols = true → ncols ≤ length v → length w = k →
  for_each (seq 0 k)
    (λ i w', temp ← gather_row M v i; store w' i temp) w
  = Some (mat_vec M k v).
Proof.
  intros HM Hv Hw.
  rewrite (for_each_store _ (λ i _, gather_row M v i) (row_dot M v)) by
    (try lia; intros i Hi; apply (gather_row_ok _ ncols); try lia;
     by apply (matrix_ok_row _ k)).
  rewrite drop_ge by lia. by rewrite app_nil_r.
Qed.

(** [w += M v] on the first [k] rows. *)
Lemma add_mat_vec_loop_ok M k ncols v w :
  matrix_ok M k ncols = true → ncols ≤ length v → length w = k →
  for_each (seq 0 k)
    (λ i w', temp ← gather_row M v i; wi ← w' !! i;
             store w' i (wi ⊕ temp))
    w
  = Some (map (λ i, vget w i ⊕ row_dot M v i) (seq 0 k)).
Proof.
  intros HM Hv Hw.
  erewrite for_each_ext; last first.
  { intros i w' _.
    instantiate (1 := λ i w', a ← (temp ← gather_row M v i; wi ← w' !! i;
                                   Some (wi ⊕ temp)); store w' i a).
    simpl. destruct (gather_row M v i); simpl; [|done].
    by destruct (w' !! i). }
  rewrite (for_each_store _ _ (λ i, vget w i ⊕ row_dot M v i)); try lia.
  { rewrite drop_ge by lia. by rewrite app_nil_r. }
  intros i Hi. rewrite (gather_row_ok _ ncols) by
    (try lia; by apply (matrix_ok_row _ k)).
  simpl. rewrite lookup_app_r by (rewrite length_map, length_seq; lia).
  rewrite length_map, length_seq, Nat.sub_diag, lookup_drop, Nat.add_0_r.
  by rewrite (lookup_vget w i) by lia.
Qed.

End ProductFacts.

(** ** The cycle *)

Section CycleFacts.
Context {V : Type} `{Scalar V}.
Local Open Scope scalar_scope.
Implicit Types (lvl nxt : cpu V) (lvls sub rest : list (cpu V)).
Implicit Types (x rhs w : list V) (tr : list event).

Local Abbreviation state := (list (cpu V) * list V * list event)%type.

(** A loop with a body that ignores the index, under an invariant. *)
Lemma for_each_iter_inv {St : Type} (I : nat → St → Prop) a k
    (body : St → option St) (g : St → St) (s : St) :
  I 0 s → (∀ j s', I j s' → body s' = Some (g s') ∧ I (S j) (g s')) →
  for_each (seq a k) (λ _, body) s = Some (Nat.iter k g s)
  ∧ I k (Nat.iter k g s).
Proof.
  intros Hs Hb. revert a. induction k as [|k IH]; intros a; [done|].
  rewrite seq_S, for_each_app. destruct (IH a) as [-> HI]. simpl.
  destruct (Hb _ _ HI) as [-> HI']. done.
Qed.

(** One iteration of the loop of [cycle] is steps a to g, provided the
    recursive call behaves as [coarse] on the coarser levels. *)
Lemma cycle_body_ok rec coarse ctr same prm lvl nxt rest rhs x tr :
  (∀ sub f0 u0,
     hier_ok sub = true → args_ok sub f0 u0 = true →
     length sub = S (length rest) →
     rec sub f0 u0 = Some (coarse sub f0 u0)
     ∧ hier_shape sub (coarse sub f0 u0).1.1
     ∧ length (coarse sub f0 u0).1.2 = length u0
     ∧ (coarse sub f0 u0).2 = ctr) →
  hier_ok (lvl :: nxt :: rest) = true →
  length rhs = rows (A lvl) → length x = rows (A lvl) →
  let s' := two_grid coarse same prm (rows (A lvl)) (rows (A nxt)) rhs
              (lvl :: nxt :: rest, x, tr) in
  cycle_body rec same prm (rows (A lvl)) (rows (A nxt)) rhs
    (lvl :: nxt :: rest, x, tr) = Some s'
  ∧ hier_shape (lvl :: nxt :: rest) s'.1.1
  ∧ length s'.1.2 = rows (A lvl)
  ∧ s'.2 = tr ++ replicate (npre prm) (EvRelax (S (S (length rest))))
              ++ [EvResidual (S (S (length rest)));
                  EvRestrict (S (S (length rest)));
                  EvZero (S (length rest)); EvCall (S (length rest))]
              ++ ctr
              ++ [EvReturn (S (length rest));
                  EvProlong (S (S (length rest)))]
              ++ replicate (npost prm) (EvRelax (S (S (length rest)))).
Proof.
  intros Hrec (HA & HR & HP & Ht & Hu & Hf & Hsub)%hier_ok_step Hrhs Hx.
  unfold cycle_body, two_grid. cbv zeta.
  (* a. pre-smoothing *)
  assert (Hok : relax_ok lvl rhs x = true) by by apply relax_ok_intro.
  rewrite (relax_loop_ok _ _ _ _ _ _ _ Hok).
  destruct (Nat.iter (npre prm) (sweep same rhs) (lvl, x)) as [lvl1 x1] eqn:E1.
  destruct (sweeps_inv _ _ _ _ _ _ _ Hok E1) as (t1 & -> & Ht1 & Hx1).
  simpl.
  (* b. residual *)
  rewrite (defect_loop_ok _ _ (rows (A lvl))) by (try done; lia). simpl.
  (* c. restriction *)
  rewrite (mat_vec_loop_ok _ _ (rows (A lvl))) by
    (try done; rewrite length_defect; lia).
  simpl.
  (* d, e. the coarse problem *)
  set (tv := defect (A lvl) (rows (A lvl)) rhs x1).
  set (fv := mat_vec (R lvl) (rows (A nxt)) tv).
  set (u0 := replicate (length (u nxt)) vzero).
  set (nxt1 := set_u (set_f nxt fv) u0).
  assert (Hsh1 : hier_shape (nxt :: rest) (nxt1 :: rest)).
  { constructor; [|apply hier_shape_refl].
    repeat split; simpl; subst fv u0;
      rewrite ?length_mat_vec, ?length_replicate; done. }
  destruct (Hrec (nxt1 :: rest) fv u0) as (-> & Hsh2 & Hlu & Hctr).
  { by apply (hier_ok_shape _ _ Hsh1). }
  { apply args_ok_cons. simpl. subst fv u0.
    by rewrite length_mat_vec, length_replicate. }
  { done. }
  destruct (coarse (nxt1 :: rest) fv u0) as [[sub u'] trc]. simpl in *.
  pose proof (hier_shape_trans _ _ _ Hsh1 Hsh2) as Hsh3.
  inversion Hsh3 as [|? nxt2 ? rest2 Hn2 Hr2]; subst. simpl.
  (* f. prolongation *)
  assert (Hlu' : length u' = rows (A nxt)).
  { rewrite Hlu. subst u0. by rewrite length_replicate. }
  rewrite (add_mat_vec_loop_ok _ _ (rows (A nxt))) by (try done; lia).
  simpl.
  (* g. post-smoothing *)
  set (x2 := map _ (seq 0 (rows (A lvl)))).
  assert (Hx2 : length x2 = rows (A lvl)).
  { subst x2. by rewrite length_map, length_seq. }
  assert (Hok2 : relax_ok (set_t (set_t lvl t1) tv) rhs x2 = true).
  { apply (relax_ok_set_t _ _ x1); [|by apply length_defect|done].
    by apply (relax_ok_set_t _ _ x). }
  rewrite (relax_loop_ok _ _ _ _ _ _ _ Hok2).
  destruct (Nat.iter (npost prm) (sweep same rhs) (set_t (set_t lvl t1) tv, x2))
    as [lvl3 x3] eqn:E3.
  destruct (sweeps_inv _ _ _ _ _ _ _ Hok2 E3) as (t3 & -> & Ht3 & Hx3).
  simpl in *.
  assert (Hlen : length rest2 = length rest).
  { symmetry. by apply hier_shape_length. }
  rewrite Hlen. split; [|split; [|done]].
  - do 2 f_equal. rewrite <- !app_assoc. simpl. by rewrite <- !app_assoc.
  - constructor.
    + repeat split; simpl; try done. congruence.
    + constructor; [|done]. destruct Hn2 as (? & ? & ? & ? & ? & ? & ?).
      repeat split; simpl; try done. congruence.
Qed.

End CycleFacts.

Section MainFacts.
Context {V : Type} `{Scalar V}.
Local Open Scope scalar_scope.
Implicit Types (lvl nxt : cpu V) (lvls sub rest : list (cpu V)).
Implicit Types (x rhs w : list V) (tr : list event).

(** On a well-formed hierarchy the code computes [vcycle]: no access is out
    of range, the shape of the hierarchy and the size of [x] are kept, and
    the trace is [cycle_trace]. *)
Lemma cycle_rec_vcycle prm d :
  ∀ same lvls rhs x,
  hier_ok lvls = true → args_ok lvls rhs x = true → length lvls ≤ d →
  cycle_rec d same prm lvls rhs x = Some (vcycle d same prm lvls rhs x)
  ∧ hier_shape lvls (vcycle d same prm lvls rhs x).1.1
  ∧ length (vcycle d same prm lvls rhs x).1.2 = length x
  ∧ (vcycle d same prm lvls rhs x).2 = cycle_trace prm (length lvls).
Proof.
  induction d as [|d IH]; intros same lvls rhs x Hok Hargs Hd.
  { destruct lvls; [done|simpl in Hd; lia]. }
  destruct lvls as [|lvl [|nxt rest]]; [done| |].
  - (* the last level *)
    apply args_ok_cons in Hargs as [Hrhs Hx]. simpl in Hok. simpl.
    rewrite (mat_vec_loop_ok _ _ (rows (A lvl))) by (try done; lia).
    simpl. rewrite length_mat_vec. repeat split; try done.
    apply hier_shape_refl.
  - (* a level with a successor *)
    apply args_ok_cons in Hargs as [Hrhs Hx].
    set (it := replicate (npre prm) (EvRelax (S (S (length rest))))
               ++ [EvResidual (S (S (length rest)));
                   EvRestrict (S (S (length rest)));
                   EvZero (S (length rest)); EvCall (S (length rest))]
               ++ cycle_trace prm (S (length rest))
               ++ [EvReturn (S (length rest));
                   EvProlong (S (S (length rest)))]
               ++ replicate (npost prm) (EvRelax (S (S (length rest))))).
    pose (I := λ (j : nat) (s : list (cpu V) * list V * list event),
            hier_shape (lvl :: nxt :: rest) s.1.1
            ∧ length s.1.2 = rows (A lvl)
            ∧ s.2 = mjoin (replicate j it)).
    destruct (for_each_iter_inv I 0 (ncycle prm)
      (cycle_body (cycle_rec d true prm) same prm
         (rows (A lvl)) (rows (A nxt)) rhs)
      (two_grid (vcycle d true prm) same prm
         (rows (A lvl)) (rows (A nxt)) rhs)
      (lvl :: nxt :: rest, x, [])) as (Hrun & Hsh & Hlen & Htr).
    { repeat split; [apply hier_shape_refl|done]. }
    { intros j [[lvls' x'] tr'] (Hsh & Hlen & Htr).
      simpl in Hsh, Hlen, Htr. subst tr'.
      inversion Hsh as [|? lvl' ? sub' Hl Hsub]; subst.
      inversion Hsub as [|? nxt' ? rest' Hn Hrest]; subst.
      assert (Hlr : length rest' = length rest).
      { symmetry. by apply hier_shape_length. }
      pose proof Hl as (EA & _). pose proof Hn as (EAn & _).
      rewrite <- EA, <- EAn.
      destruct (cycle_body_ok (cycle_rec d true prm) (vcycle d true prm)
                  (cycle_trace prm (S (length rest)))
                  same prm lvl' nxt' rest' rhs x' (mjoin (replicate j it)))
        as (Hb & Hsh' & Hlen' & Htr').
      - intros sub f0 u0 Hsok Hsargs Hslen.
        destruct (IH true sub f0 u0 Hsok Hsargs) as (? & ? & ? & ?).
        { simpl in Hd. lia. }
        repeat split; try done. rewrite Hslen, Hlr in *. done.
      - by apply (hier_ok_shape _ _ Hsh).
      - by rewrite EA.
      - by rewrite EA.
      - rewrite Hb. split; [done|]. repeat split.
        + by apply (hier_shape_trans _ _ _ Hsh).
        + by rewrite Hlen', EA.
        + rewrite Htr', Hlr. fold it.
          rewrite replicate_S_end, join_app. simpl.
          by rewrite app_nil_r. }
    change (cycle_rec (S d) same prm (lvl :: nxt :: rest) rhs x) with
      (for_each (seq 0 (ncycle prm))
         (λ _, cycle_body (cycle_rec d true prm) same prm
                 (rows (A lvl)) (rows (A nxt)) rhs)
         (lvl :: nxt :: rest, x, [])).
    change (vcycle (S d) same prm (lvl :: nxt :: rest) rhs x) with
      (Nat.iter (ncycle prm)
         (two_grid (vcycle d true prm) same prm
            (rows (A lvl)) (rows (A nxt)) rhs)
         (lvl :: nxt :: rest, x, [])).
    rewrite Hrun. repeat split; try done. congruence.
Qed.

End MainFacts.

(** * The properties of the specification *)

Section Claims.
Context {V : Type} `{Scalar V}.
Local Open Scope scalar_scope.
Implicit Types (lvl nxt : cpu V) (lvls sub rest : list (cpu V)).
Implicit Types (x rhs w : list V) (tr : list event) (M : matrix V).

Lemma row_diag_missing M i :
  Forall (λ e, e.1 ≠ i) (entries M i) → row_diag M i = vone.
Proof.
  intros Hno. unfold row_diag.
  replace (filter (λ e, e.1 = i) (entries M i)) with (@nil (nat * V)); [done|].
  symmetry. induction Hno as [|e l He _ IH]; [done|].
  rewrite filter_cons, decide_False by done. exact IH.
Qed.

Lemma lookup_jacobi M rhs x i :
  i < rows M → jacobi M rhs x !! i = Some (jacobi_row M rhs x i).
Proof.
  intros Hi. unfold jacobi. rewrite list_lookup_fmap, lookup_seq_lt by done.
  done.
Qed.

Lemma lookup_mat_vec M k w i :
  i < k → mat_vec M k w !! i = Some (row_dot M w i).
Proof.
  intros Hi. unfold mat_vec. rewrite list_lookup_fmap, lookup_seq_lt by done.
  done.
Qed.

(** C3. On the last level of the sequence [cycle] is the direct solve: with
    [Ai] well-formed and [rhs], [x] of the size of the level, it returns
    [x[i] = sum_j Ai[i,j] * rhs[j]] for every row [i], a value in which
    neither the old [x] nor the configuration occurs; the level is left as
    it was and the only event is the solve: no sweep, no recursive call. *)
Theorem cycle_terminal_solve same prm lvl rhs x :
  hier_ok [lvl] = true → args_ok [lvl] rhs x = true →
  cycle same prm [lvl] rhs x
  = Some ([lvl], mat_vec (Ai lvl) (rows (A lvl)) rhs, [EvSolve 1])
  ∧ length (mat_vec (Ai lvl) (rows (A lvl)) rhs) = length x
  ∧ ∀ i, i < rows (A lvl) →
      mat_vec (Ai lvl) (rows (A lvl)) rhs !! i
      = Some (row_dot (Ai lvl) rhs i).
Proof.
  intros Hok Hargs. pose proof Hargs as [Hrhs Hx]%args_ok_cons.
  destruct (cycle_rec_vcycle prm 1 same [lvl] rhs x Hok Hargs)
    as (Hrun & _); [done|].
  split; [exact Hrun|]. split.
  - by rewrite length_mat_vec.
  - intros i Hi. by apply lookup_mat_vec.
Qed.

(** C4. One call of [relax] on a level and arguments of matching sizes:
    the row loop stages in [t] the Jacobi update of every row, each a
    function of the iterate before the sweep alone; the swap and the copy
    commit the same [x]; after the swap [t] holds the old iterate and after
    the copy the new one. [rhs] is a const reference: the embedding has no
    write to it and returns only what [relax] can write. *)
Theorem relax_is_jacobi lvl rhs x :
  relax_ok lvl rhs x = true →
  for_each (seq 0 (rows (A lvl)))
    (λ i w, a ← relax_row (A lvl) rhs x i; store w i a) (t lvl)
  = Some (jacobi (A lvl) rhs x)
  ∧ relax true lvl rhs x = Some (set_t lvl x, jacobi (A lvl) rhs x)
  ∧ relax false lvl rhs x
    = Some (set_t lvl (jacobi (A lvl) rhs x), jacobi (A lvl) rhs x)
  ∧ ∀ i, i < rows (A lvl) →
      jacobi (A lvl) rhs x !! i = Some (jacobi_row (A lvl) rhs x i).
Proof.
  intros Hok. split; [by apply relax_rows_ok|].
  split; [by rewrite relax_sweep|]. split; [by rewrite relax_sweep|].
  intros i Hi. by apply lookup_jacobi.
Qed.

(** C8. A row [i] without an entry in column [i]: [relax] still succeeds,
    on either commit path, and the value committed for the row is computed
    with the divisor [1]. *)
Theorem relax_missing_diagonal same lvl rhs x i :
  relax_ok lvl rhs x = true → i < rows (A lvl) →
  Forall (λ e, e.1 ≠ i) (entries (A lvl) i) →
  relax_row (A lvl) rhs x i
  = Some (vget x i ⊕ omega ⊗ (row_defect (A lvl) rhs x i ⊘ vone))
  ∧ ∃ lvl' x',
      relax same lvl rhs x = Some (lvl', x')
      ∧ x' !! i
        = Some (vget x i ⊕ omega ⊗ (row_defect (A lvl) rhs x i ⊘ vone)).
Proof.
  intros Hok Hi Hno.
  pose proof Hok as (HA & Ht & Hrhs & Hx)%relax_ok_inv.
  pose proof (row_diag_missing _ _ Hno) as Hd. split.
  - rewrite (relax_row_ok _ (rows (A lvl))); try lia.
    + unfold jacobi_row. by rewrite Hd.
    + by apply (matrix_ok_row _ (rows (A lvl))).
  - rewrite (relax_sweep _ _ _ _ Hok). simpl. eexists _, _.
    split; [reflexivity|]. rewrite lookup_jacobi by done.
    unfold jacobi_row. by rewrite Hd.
Qed.

(** C9. With [ncycle = 0] a call of [cycle] on a level that has a successor
    runs its loop zero times: it returns the levels and [x] as they were,
    and no event: no sweep, no product, no recursive call. No assumption
    on the sizes is needed. *)
Theorem cycle_ncycle_zero same prm lvl nxt rest rhs x :
  ncycle prm = 0 →
  cycle same prm (lvl :: nxt :: rest) rhs x
  = Some (lvl :: nxt :: rest, x, []).
Proof. intros Hn. unfold cycle. simpl. by rewrite Hn. Qed.

End Claims.

Lemma cycle_terminal_solve_witness :
  cycle false (Params 2 3 4) [lvl_last] [qz 6] [qz 5]
  = Some ([lvl_last], mat_vec m_half 1 [qz 6], [EvSolve 1]).
Proof.
  apply (cycle_terminal_solve false (Params 2 3 4) lvl_last [qz 6] [qz 5]);
    reflexivity.
Defined.

Lemma relax_is_jacobi_witness :
  relax true lvl_fine [qz 1; qz 1] [qz 0; qz 0]
  = Some (set_t lvl_fine [qz 0; qz 0],
          jacobi m_fine [qz 1; qz 1] [qz 0; qz 0]).
Proof.
  apply (relax_is_jacobi lvl_fine [qz 1; qz 1] [qz 0; qz 0]). reflexivity.
Defined.

Lemma relax_missing_diagonal_witness :
  ∃ lvl' x', relax true lvl_swap [qz 1; qz 1] [qz 1; qz 3] = Some (lvl', x')
    ∧ x' !! 0
      = Some (vget [qz 1; qz 3] 0
              ⊕ omega ⊗ (row_defect m_swap [qz 1; qz 1] [qz 1; qz 3] 0
                         ⊘ vone))%V.
Proof.
  apply (relax_missing_diagonal true lvl_swap [qz 1; qz 1] [qz 1; qz 3] 0).
  - reflexivity.
  - simpl. lia.
  - repeat constructor. simpl. lia.
Defined.

Lemma cycle_ncycle_zero_witness :
  cycle false (Params 0 1 1) hier3 [qz 1; qz 1] [qz 0; qz 0]
  = Some (hier3, [qz 0; qz 0], []).
Proof.
  apply (cycle_ncycle_zero false (Params 0 1 1) lvl_fine lvl_mid [lvl_last]).
  reflexivity.
Defined.

(** ** Properties that read the sums in a field *)

Section FieldClaims.
Context {V : Type} `{Scalar V}.
Variables (vopp vinv : V → V).
Hypothesis Vfield :
  field_theory vzero vone vadd vmul vsub vopp vdiv vinv eq.
Local Open Scope scalar_scope.
Implicit Types (lvl nxt : cpu V) (lvls sub rest : list (cpu V)).
Implicit Types (x rhs w l : list V) (tr : list event) (M : matrix V).

Add Field Vfield_field : Vfield.

Lemma fold_add_init l a : fold_left vadd l a = a ⊕ vsum l.
Proof.
  unfold vsum. revert a. induction l as [|b l IH]; intros a; simpl.
  { ring. }
  rewrite (IH (a ⊕ b)), (IH (vzero ⊕ b)). ring.
Qed.

Lemma vsum_cons a l : vsum (a :: l) = a ⊕ vsum l.
Proof. unfold vsum at 1. simpl. rewrite fold_add_init. ring. Qed.

Lemma fold_sub_sum l a : fold_left vsub l a = a ⊖ vsum l.
Proof.
  revert a. induction l as [|b l IH]; intros a; simpl.
  { unfold vsum. simpl. ring. }
  rewrite IH, vsum_cons. ring.
Qed.

(** In a field the sum does not depend on the order of its terms. *)
Lemma vsum_perm l l' : l ≡ₚ l' → vsum l = vsum l'.
Proof.
  induction 1 as [|a l l' _ IH|a b l|l l' l'' _ IH1 _ IH2].
  - done.
  - by rewrite !vsum_cons, IH.
  - rewrite !vsum_cons. ring.
  - by rewrite IH1.
Qed.

(** Subtracting the terms of a row one by one subtracts their sum. *)
Lemma row_defect_dot M rhs x i :
  row_defect M rhs x i = vget rhs i ⊖ row_dot M x i.
Proof. unfold row_defect, row_dot. apply fold_sub_sum. Qed.

Lemma defect_residual M k rhs x : defect M k rhs x = residual M k rhs x.
Proof.
  unfold defect, residual. apply map_ext. intros i. apply row_defect_dot.
Qed.

(** A sum splits into the terms that satisfy a test and the others. *)
Lemma vsum_filter_split {B : Type} (g : B → V) (Q : B → Prop)
    `{∀ e, Decision (Q e)} (es : list B) :
  vsum (map g es)
  = vsum (map g (filter (λ e, ¬ Q e) es)) ⊕ vsum (map g (filter Q es)).
Proof.
  induction es as [|e es IH]; simpl.
  { unfold vsum. simpl. ring. }
  rewrite !filter_cons, vsum_cons, IH.
  destruct (decide (Q e)) as [HQ|HQ].
  - rewrite decide_False by tauto. simpl. rewrite vsum_cons. ring.
  - rewrite decide_True by tauto. simpl. rewrite vsum_cons. ring.
Qed.

(** With a single diagonal entry [d], the sum over the row is the sum over
    the other entries plus [d * x[i]]. *)
Lemma row_dot_split M x i d :
  filter (λ e, e.1 = i) (entries M i) = [(i, d)] →
  row_dot M x i = row_dot_offdiag M x i ⊕ d ⊗ vget x i.
Proof.
  intros Hd. unfold row_dot, row_dot_offdiag.
  rewrite (vsum_filter_split (term x) (λ e, e.1 = i)), Hd. simpl.
  unfold vsum at 2. simpl. unfold term. simpl. ring.
Qed.

Lemma row_diag_single M i d :
  filter (λ e, e.1 = i) (entries M i) = [(i, d)] → row_diag M i = d.
Proof. intros Hd. unfold row_diag. by rewrite Hd. Qed.

(** C1, as the code has it. [relax] succeeds on a level and arguments of
    matching sizes, and the value committed for every row [i] is
    [x[i] + 0.72 * (temp / diag)] with [temp = rhs[i]] minus the sum of
    [A[i,j] * x[j]] over all the entries of the row, the diagonal entry
    included, and [diag] the value of the diagonal entry of the row. *)
Theorem relax_subtracts_whole_row same lvl rhs x :
  relax_ok lvl rhs x = true →
  ∃ lvl' x',
    relax same lvl rhs x = Some (lvl', x')
    ∧ ∀ i, i < rows (A lvl) →
        x' !! i
        = Some (vget x i
                ⊕ omega ⊗ ((vget rhs i ⊖ row_dot (A lvl) x i)
                            ⊘ row_diag (A lvl) i)).
Proof.
  intros Hok. rewrite (relax_sweep _ _ _ _ Hok). simpl. eexists _, _.
  split; [reflexivity|]. intros i Hi.
  rewrite lookup_jacobi by done. unfold jacobi_row.
  by rewrite row_defect_dot.
Qed.

(** C10. For a row [i] with exactly one entry in column [i], of value
    [d ≠ 0], the committed value is
    [x[i] + 0.72 * (rhs[i] - sum_j A[i,j] x[j]) / d] with the sum over all
    the entries of the row; this is
    [(1 - 0.72) x[i] + 0.72 * (rhs[i] - sum_{j≠i} A[i,j] x[j]) / d]. *)
Theorem relax_damped_jacobi same lvl rhs x i d :
  relax_ok lvl rhs x = true → i < rows (A lvl) →
  filter (λ e, e.1 = i) (entries (A lvl) i) = [(i, d)] →
  d ≠ vzero →
  ∃ lvl' x',
    relax same lvl rhs x = Some (lvl', x')
    ∧ x' !! i
      = Some (vget x i
              ⊕ omega ⊗ ((vget rhs i ⊖ row_dot (A lvl) x i) ⊘ d))
    ∧ vget x i ⊕ omega ⊗ ((vget rhs i ⊖ row_dot (A lvl) x i) ⊘ d)
      = (vone ⊖ omega) ⊗ vget x i
        ⊕ omega ⊗ ((vget rhs i ⊖ row_dot_offdiag (A lvl) x i) ⊘ d).
Proof.
  intros Hok Hi Hd Hd0. rewrite (relax_sweep _ _ _ _ Hok). simpl.
  eexists _, _. split; [reflexivity|]. split.
  - rewrite lookup_jacobi by done. unfold jacobi_row.
    by rewrite row_defect_dot, (row_diag_single _ _ _ Hd).
  - rewrite (row_dot_split _ _ _ _ Hd). field. exact Hd0.
Qed.

(** C5. [resid] returns the square root of the sum over the rows of
    [(rhs[i] - (A x)[i])^2]. It is a const member that only reads its
    arguments, so the embedding returns the value alone; a second call in
    sequence therefore sees the same level, [rhs] and [x] and returns the
    same value. In a field the squares may be added in any order, as the
    [reduction(+:norm)] of the row loop does. *)
Theorem resid_norm lvl rhs x :
  matrix_ok (A lvl) (rows (A lvl)) (rows (A lvl)) = true →
  length rhs = rows (A lvl) → length x = rows (A lvl) →
  let r := residual (A lvl) (rows (A lvl)) rhs x in
  let norm := vsqrt (sum_sq r) in
  resid lvl rhs x = Some norm
  ∧ (r1 ← resid lvl rhs x; r2 ← resid lvl rhs x; Some (r1, r2))
    = Some (norm, norm)
  ∧ ∀ sq, sq ≡ₚ map (λ a, a ⊗ a) r → vsqrt (vsum sq) = norm.
Proof.
  intros HA Hrhs Hx r norm.
  assert (Hr : resid lvl rhs x = Some norm); last first.
  { rewrite Hr. split; [done|]. split; [done|]. intros sq Hsq.
    subst norm. unfold sum_sq. by rewrite (vsum_perm _ _ Hsq). }
  subst r. unfold resid.
  destruct (for_each_fold (λ _, True) (seq 0 (rows (A lvl)))
              (λ i a, temp ← resid_row (A lvl) rhs x i;
                      Some (a ⊕ temp ⊗ temp))
              (λ a i, a ⊕ row_defect (A lvl) rhs x i
                          ⊗ row_defect (A lvl) rhs x i)
              vzero) as [-> _]; [done| |].
  { intros i a Hi%list_elem_of_In%in_seq _. split; [|done].
    rewrite (resid_row_ok _ (rows (A lvl))); try lia; [done|].
    apply (matrix_ok_row _ (rows (A lvl))); [done|lia]. }
  simpl. subst norm. do 2 f_equal. unfold sum_sq, vsum.
  rewrite <- defect_residual. unfold defect.
  by rewrite !fold_left_map_fuse.
Qed.

(** C2. On a well-formed sequence of at least two levels, with [rhs] and
    [x] of the size of the first one, a call of [cycle] succeeds and is
    [ncycle] runs, one after the other, of [cycle_iteration]: [npre]
    sweeps, the residual [t = rhs - A x], its restriction [nxt.f = R t],
    [nxt.u = 0], the recursive call on [(nxt.f, nxt.u)], the correction
    [P nxt.u] added to [x], and [npost] sweeps. *)
Theorem cycle_is_coarse_grid_correction same prm lvl nxt rest rhs x :
  hier_ok (lvl :: nxt :: rest) = true →
  args_ok (lvl :: nxt :: rest) rhs x = true →
  cycle same prm (lvl :: nxt :: rest) rhs x
  = for_each (seq 0 (ncycle prm)) (λ _, cycle_iteration same prm rhs)
      (lvl :: nxt :: rest, x, [])
  ∧ is_Some (cycle same prm (lvl :: nxt :: rest) rhs x).
Proof.
  intros Hok Hargs. pose proof Hargs as [Hrhs Hx]%args_ok_cons.
  destruct (cycle_rec_vcycle prm (S (S (length rest))) same
              (lvl :: nxt :: rest) rhs x Hok Hargs) as (Hrun & _); [done|].
  unfold cycle.
  change (length (lvl :: nxt :: rest)) with (S (S (length rest))).
  rewrite Hrun. split; [|by eexists].
  pose (I := λ (j : nat) (s : list (cpu V) * list V * list event),
          hier_shape (lvl :: nxt :: rest) s.1.1
          ∧ length s.1.2 = rows (A lvl)).
  destruct (for_each_iter_inv I 0 (ncycle prm)
    (cycle_iteration same prm rhs)
    (two_grid (vcycle (S (length rest)) true prm) same prm
       (rows (A lvl)) (rows (A nxt)) rhs)
    (lvl :: nxt :: rest, x, [])) as (-> & _); [| |done].
  { split; [apply hier_shape_refl|done]. }
  intros j [[lvls' x'] tr'] (Hsh & Hlen). simpl in Hsh, Hlen.
  inversion Hsh as [|? lvl' ? sub' Hl Hsub]; subst.
  inversion Hsub as [|? nxt' ? rest' Hn Hrest]; subst.
  assert (Hlr : length rest' = length rest).
  { symmetry. by apply hier_shape_length. }
  pose proof Hl as (EA & _). pose proof Hn as (EAn & _).
  pose proof (hier_ok_shape _ _ Hsh Hok) as Hok'.
  assert (Hrec : ∀ sub f0 u0,
     hier_ok sub = true → args_ok sub f0 u0 = true →
     length sub = S (length rest') →
     cycle_rec (S (length rest)) true prm sub f0 u0
     = Some (vcycle (S (length rest)) true prm sub f0 u0)
     ∧ hier_shape sub (vcycle (S (length rest)) true prm sub f0 u0).1.1
     ∧ length (vcycle (S (length rest)) true prm sub f0 u0).1.2 = length u0
     ∧ (vcycle (S (length rest)) true prm sub f0 u0).2
       = cycle_trace prm (S (length rest))).
  { intros sub f0 u0 Hsok Hsargs Hslen.
    destruct (cycle_rec_vcycle prm (S (length rest)) true sub f0 u0
                Hsok Hsargs) as (? & ? & ? & ?); [lia|].
    repeat split; try done. by rewrite Hslen, Hlr in *. }
  destruct (cycle_body_ok _ _ _ same prm lvl' nxt' rest' rhs x' tr' Hrec Hok')
    as (_ & Hsh' & Hlen' & _); [by rewrite EA|by rewrite EA|].
  rewrite <- EA, <- EAn. split; [|split].
  2: by apply (hier_shape_trans _ _ _ Hsh).
  2: by rewrite Hlen', EA.
  (* the iteration of the specification is the iteration of the code *)
  apply hier_ok_step in Hok' as (HA & HR & HP & Ht & Hu & Hf & Hsub').
  unfold cycle_iteration, two_grid. cbv zeta.
  assert (Hrel : relax_ok lvl' rhs x' = true).
  { apply relax_ok_intro; try done; by rewrite EA. }
  destruct (Nat.iter (npre prm) (sweep same rhs) (lvl', x'))
    as [lvl1 x1] eqn:E1.
  destruct (sweeps_inv _ _ _ _ _ _ _ Hrel E1) as (t1 & -> & Ht1 & Hx1).
  cbn [A R P u set_t]. rewrite <- defect_residual.
  replace (replicate (rows (A nxt')) vzero)
    with (replicate (length (u nxt')) vzero) by (by rewrite Hu).
  set (tv := defect (A lvl') (rows (A lvl')) rhs x1).
  set (fv := mat_vec (R lvl') (rows (A nxt')) tv).
  set (u0 := replicate (length (u nxt')) vzero).
  set (nxt1 := set_u (set_f nxt' fv) u0).
  destruct (Hrec (nxt1 :: rest') fv u0) as (Hc & _); [| |done|].
  { apply (hier_ok_shape (nxt' :: rest')); [|done].
    constructor; [|apply hier_shape_refl].
    repeat split; simpl; subst fv u0;
      rewrite ?length_mat_vec, ?length_replicate; done. }
  { apply args_ok_cons. simpl. subst fv u0.
    by rewrite length_mat_vec, length_replicate. }
  unfold cycle. change (length (nxt1 :: rest')) with (S (length rest')).
  rewrite Hlr, Hc. cbn [mbind option_bind].
  destruct (vcycle (S (length rest)) true prm (nxt1 :: rest') fv u0)
    as [[sub u'] trc].
  by destruct (Nat.iter (npost prm) (sweep same rhs) _).
Qed.

End FieldClaims.

Lemma relax_subtracts_whole_row_witness :
  ∃ lvl' x',
    relax true lvl_two [qz 1] [qz 1] = Some (lvl', x')
    ∧ ∀ i, i < 1 →
        x' !! i
        = Some (vget [qz 1] i
                ⊕ omega ⊗ ((vget [qz 1] i ⊖ row_dot m_two [qz 1] i)
                            ⊘ row_diag m_two i))%V.
Proof.
  apply (relax_subtracts_whole_row (H:=Qc_scalar) Qcopp Qcinv Qcft
           true lvl_two [qz 1] [qz 1]).
  reflexivity.
Defined.

(** C1, as the specification states it, fails on the matrix [(2)] with
    [rhs = (1)] and [x = (1)]: the code commits [1 + 0.72 * ((1 - 2) / 2)
    = 16/25], the update that leaves the diagonal out of the sum is
    [1 + 0.72 * (1 / 2) = 34/25]. *)
Lemma relax_excluding_diagonal_counterexample :
  (map this ∘ snd) <$> relax true lvl_two [qz 1] [qz 1] = Some [16 # 25]%Q
  ∧ this (jacobi_row_excluding_diag m_two [qz 1] [qz 1] 0) = (34 # 25)%Q
  ∧ ∀ lvl' x',
      relax true lvl_two [qz 1] [qz 1] = Some (lvl', x') →
      x' !! 0 ≠ Some (jacobi_row_excluding_diag m_two [qz 1] [qz 1] 0).
Proof.
  split; [vm_compute; reflexivity|]. split; [vm_compute; reflexivity|].
  intros lvl' x' Hrun Heq.
  assert (Hx : map this x' = [16 # 25]%Q).
  { apply (f_equal (fmap (map this ∘ snd))) in Hrun.
    vm_compute in Hrun. by injection Hrun. }
  destruct x' as [|a x']; [done|]. simpl in Heq, Hx.
  injection Heq as Ha. injection Hx as Ha' _.
  rewrite Ha in Ha'. vm_compute in Ha'. discriminate Ha'.
Qed.

Lemma relax_damped_jacobi_witness :
  ∃ lvl' x',
    relax false lvl_fine [qz 1; qz 1] [qz 1; qz 3] = Some (lvl', x')
    ∧ x' !! 1
      = Some (vget [qz 1; qz 3] 1
              ⊕ omega ⊗ ((vget [qz 1; qz 1] 1
                          ⊖ row_dot m_fine [qz 1; qz 3] 1) ⊘ qz 2))%V
    ∧ (vget [qz 1; qz 3] 1
       ⊕ omega ⊗ ((vget [qz 1; qz 1] 1
                   ⊖ row_dot m_fine [qz 1; qz 3] 1) ⊘ qz 2)
       = (vone ⊖ omega) ⊗ vget [qz 1; qz 3] 1
         ⊕ omega ⊗ ((vget [qz 1; qz 1] 1
                     ⊖ row_dot_offdiag m_fine [qz 1; qz 3] 1) ⊘ qz 2))%V.
Proof.
  apply (relax_damped_jacobi (H:=Qc_scalar) Qcopp Qcinv Qcft false lvl_fine
           [qz 1; qz 1] [qz 1; qz 3] 1 (qz 2)).
  - reflexivity.
  - simpl. lia.
  - reflexivity.
  - discriminate.
Defined.

Lemma resid_norm_witness :
  resid lvl_fine [qz 3; qz 4] [qz 0; qz 0]
  = Some (vsqrt (sum_sq (residual m_fine 2 [qz 3; qz 4] [qz 0; qz 0]))).
Proof.
  apply (resid_norm (H:=Qc_scalar) Qcopp Qcinv Qcft
           lvl_fine [qz 3; qz 4] [qz 0; qz 0]);
    reflexivity.
Defined.

Lemma cycle_is_coarse_grid_correction_witness :
  cycle false (Params 2 1 1) hier3 [qz 1; qz 1] [qz 0; qz 0]
  = for_each (seq 0 2) (λ _, cycle_iteration false (Params 2 1 1) [qz 1; qz 1])
      (hier3, [qz 0; qz 0], [])
  ∧ is_Some (cycle false (Params 2 1 1) hier3 [qz 1; qz 1] [qz 0; qz 0]).
Proof.
  apply (cycle_is_coarse_grid_correction (H:=Qc_scalar) Qcopp Qcinv Qcft
           false (Params 2 1 1) lvl_fine lvl_mid [lvl_last]
           [qz 1; qz 1] [qz 0; qz 0]); reflexivity.
Defined.

(** ** Recursion depth and traces *)

Section DepthFacts.
Context {V : Type} `{Scalar V}.
Local Open Scope scalar_scope.
Implicit Types (lvl nxt : cpu V) (lvls sub rest : list (cpu V)).
Implicit Types (x rhs w : list V) (tr : list event).

Local Abbreviation state := (list (cpu V) * list V * list event)%type.

Lemma for_each_ext_inv {St : Type} (I : St → Prop) js
    (body1 body2 : nat → St → option St) (s : St) :
  I s →
  (∀ j s', I s' → body1 j s' = body2 j s') →
  (∀ j s' s'', I s' → body1 j s' = Some s'' → I s'') →
  for_each js body1 s = for_each js body2 s.
Proof.
  intros Hs Hext Hinv. revert s Hs.
  induction js as [|j js IH]; intros s Hs; simpl; [done|].
  rewrite <- (Hext j s Hs).
  destruct (body1 j s) as [s1|] eqn:E; simpl; [|done].
  apply IH. by apply (Hinv j s).
Qed.

Lemma for_each_preserves {St : Type} (I : St → Prop) js
    (body : nat → St → option St) (s s' : St) :
  I s → (∀ j s1 s2, I s1 → body j s1 = Some s2 → I s2) →
  for_each js body s = Some s' → I s'.
Proof.
  intros Hs Hinv. revert s Hs.
  induction js as [|j js IH]; intros s Hs; simpl.
  { by intros [= <-]. }
  destruct (body j s) as [s1|] eqn:E; simpl; [|done].
  apply IH. by apply (Hinv j s).
Qed.

(** The loop body only looks at the recursive call on the tail of its
    sequence, and keeps the length of the sequence when the recursive call
    does. *)
Lemma cycle_body_ext rec1 rec2 same prm n nc rhs (s : state) :
  (∀ sub f0 u0, S (length sub) = length s.1.1 →
     rec1 sub f0 u0 = rec2 sub f0 u0) →
  cycle_body rec1 same prm n nc rhs s = cycle_body rec2 same prm n nc rhs s.
Proof.
  destruct s as [[[|lvl [|nxt rest]] x] tr]; try done. simpl. intros Hrec.
  destruct (relax_loop _ _ _ _ _) as [[[lvl1 x1] tr1]|]; simpl; [|done].
  destruct (for_each _ _ (t lvl1)) as [t1|]; simpl; [|done].
  destruct (for_each _ _ (f nxt)) as [f1|]; simpl; [|done].
  by rewrite Hrec.
Qed.

Lemma cycle_body_length rec same prm n nc rhs (s s' : state) :
  (∀ sub f0 u0 r, rec sub f0 u0 = Some r → length r.1.1 = length sub) →
  cycle_body rec same prm n nc rhs s = Some s' →
  length s'.1.1 = length s.1.1.
Proof.
  destruct s as [[[|lvl [|nxt rest]] x] tr]; try done. simpl. intros Hrec.
  destruct (relax_loop _ _ _ _ _) as [[[lvl1 x1] tr1]|]; simpl; [|done].
  destruct (for_each _ _ (t lvl1)) as [t1|]; simpl; [|done].
  destruct (for_each _ _ (f nxt)) as [f1|]; simpl; [|done].
  destruct (rec _ _ _) as [[[sub u'] trc]|] eqn:Er; simpl; [|done].
  apply Hrec in Er. simpl in Er.
  destruct sub as [|nxt2 rest2]; [done|].
  destruct (for_each _ _ x1) as [x2|]; simpl; [|done].
  destruct (relax_loop _ _ _ _ _) as [[[lvl3 x3] tr3]|]; simpl; [|done].
  intros [= <-]. simpl in *. lia.
Qed.

Lemma cycle_rec_length prm d :
  ∀ same lvls rhs x r,
  cycle_rec d same prm lvls rhs x = Some r → length r.1.1 = length lvls.
Proof.
  induction d as [|d IH]; intros same lvls rhs x r; [done|].
  destruct lvls as [|lvl [|nxt rest]]; [done| |].
  - simpl. destruct (for_each _ _ x) as [x1|]; simpl; [|done].
    by intros [= <-].
  - change (cycle_rec (S d) same prm (lvl :: nxt :: rest) rhs x) with
      (for_each (seq 0 (ncycle prm))
         (λ _, cycle_body (cycle_rec d true prm) same prm
                 (rows (A lvl)) (rows (A nxt)) rhs)
         (lvl :: nxt :: rest, x, [])).
    apply (for_each_preserves
             (λ s : state, length s.1.1 = length (lvl :: nxt :: rest)));
      [done|].
    intros _ s1 s2 Hs1 Hb. rewrite <- Hs1.
    apply (cycle_body_length _ _ _ _ _ _ _ _ (IH true) Hb).
Qed.

(** The recursion never goes deeper than the length of the sequence: any
    bound [d] on the depth that is at least this length gives the same
    run. *)
Lemma cycle_rec_depth prm d1 :
  ∀ d2 same lvls rhs x,
  length lvls ≤ d1 → length lvls ≤ d2 →
  cycle_rec d1 same prm lvls rhs x = cycle_rec d2 same prm lvls rhs x.
Proof.
  induction d1 as [|d1 IH]; intros d2 same lvls rhs x H1 H2.
  { destruct lvls; [by destruct d2|simpl in H1; lia]. }
  destruct lvls as [|lvl [|nxt rest]]; [by destruct d2| |].
  - destruct d2; [simpl in H2; lia|done].
  - destruct d2 as [|d2]; [simpl in H2; lia|].
    change (for_each (seq 0 (ncycle prm))
         (λ _, cycle_body (cycle_rec d1 true prm) same prm
                 (rows (A lvl)) (rows (A nxt)) rhs)
         (lvl :: nxt :: rest, x, [])
      = for_each (seq 0 (ncycle prm))
         (λ _, cycle_body (cycle_rec d2 true prm) same prm
                 (rows (A lvl)) (rows (A nxt)) rhs)
         (lvl :: nxt :: rest, x, [])).
    apply (for_each_ext_inv
             (λ s : state, length s.1.1 = length (lvl :: nxt :: rest)));
      [done| |].
    + intros _ s Hs. apply cycle_body_ext. intros sub f0 u0 Hsub.
      rewrite Hs in Hsub. simpl in *. apply IH; lia.
    + intros _ s1 s2 Hs1 Hb. rewrite <- Hs1.
      apply (cycle_body_length _ _ _ _ _ _ _ _
               (cycle_rec_length prm d1 true) Hb).
Qed.

End DepthFacts.

Section TraceFacts.
Implicit Types (tr : list event) (p : event → bool).

Lemma count_if_app p tr1 tr2 :
  count_if p (tr1 ++ tr2) = count_if p tr1 + count_if p tr2.
Proof. unfold count_if. by rewrite filter_app, length_app. Qed.

Lemma count_if_cons p e tr :
  count_if p (e :: tr) = (if p e then 1 else 0) + count_if p tr.
Proof.
  unfold count_if. rewrite filter_cons.
  destruct (p e); [by rewrite decide_True|by rewrite decide_False].
Qed.

Lemma count_if_replicate p k e :
  count_if p (replicate k e) = (if p e then k else 0).
Proof.
  induction k as [|k IH]; simpl; [by destruct (p e)|].
  rewrite count_if_cons, IH. by destruct (p e).
Qed.

Lemma count_if_join_replicate p k tr :
  count_if p (mjoin (replicate k tr)) = k * count_if p tr.
Proof.
  induction k as [|k IH]; simpl; [done|]. by rewrite count_if_app, IH.
Qed.

(** The counts of one cycle on [d + 2] levels, from those on [d + 1]. *)
Lemma count_if_cycle_trace p prm d :
  count_if p (cycle_trace prm (S (S d)))
  = ncycle prm
    * ((if p (EvRelax (S (S d))) then npre prm else 0)
       + (if p (EvResidual (S (S d))) then 1 else 0)
       + (if p (EvRestrict (S (S d))) then 1 else 0)
       + (if p (EvZero (S d)) then 1 else 0)
       + (if p (EvCall (S d)) then 1 else 0)
       + count_if p (cycle_trace prm (S d))
       + (if p (EvReturn (S d)) then 1 else 0)
       + (if p (EvProlong (S (S d))) then 1 else 0)
       + (if p (EvRelax (S (S d))) then npost prm else 0)).
Proof.
  change (cycle_trace prm (S (S d))) with
    (mjoin (replicate (ncycle prm)
       (replicate (npre prm) (EvRelax (S (S d)))
        ++ [EvResidual (S (S d)); EvRestrict (S (S d)); EvZero (S d);
            EvCall (S d)]
        ++ cycle_trace prm (S d)
        ++ [EvReturn (S d); EvProlong (S (S d))]
        ++ replicate (npost prm) (EvRelax (S (S d)))))).
  rewrite count_if_join_replicate. f_equal.
  rewrite !count_if_app, !count_if_replicate.
  change [EvResidual (S (S d)); EvRestrict (S (S d)); EvZero (S d);
          EvCall (S d)]
    with ([EvResidual (S (S d))] ++ [EvRestrict (S (S d))] ++ [EvZero (S d)]
          ++ [EvCall (S d)]).
  change [EvReturn (S d); EvProlong (S (S d))]
    with ([EvReturn (S d)] ++ [EvProlong (S (S d))]).
  rewrite !count_if_app, !count_if_cons.
  unfold count_if. simpl. lia.
Qed.

Lemma count_solve_cycle_trace prm d :
  count_if is_solve (cycle_trace prm (S d)) = ncycle prm ^ d.
Proof.
  induction d as [|d IH]; [done|].
  rewrite count_if_cycle_trace, IH. simpl. lia.
Qed.

Lemma count_restrict_cycle_trace prm d :
  ncycle prm = 1 → count_if is_restrict (cycle_trace prm (S d)) = d.
Proof.
  intros Hn. induction d as [|d IH]; [done|].
  rewrite count_if_cycle_trace, IH, Hn. simpl. lia.
Qed.

Lemma count_prolong_cycle_trace prm d :
  ncycle prm = 1 → count_if is_prolong (cycle_trace prm (S d)) = d.
Proof.
  intros Hn. induction d as [|d IH]; [done|].
  rewrite count_if_cycle_trace, IH, Hn. simpl. lia.
Qed.

(** In general the restrictions and the prolongations of a cycle on
    [d + 1] levels number [n + n^2 + ... + n^d] for [n = ncycle]. *)
Lemma count_restrict_descents prm d :
  count_if is_restrict (cycle_trace prm (S d)) = descents (ncycle prm) d.
Proof.
  induction d as [|d IH]; [done|].
  rewrite count_if_cycle_trace, IH. simpl. lia.
Qed.

Lemma count_prolong_descents prm d :
  count_if is_prolong (cycle_trace prm (S d)) = descents (ncycle prm) d.
Proof.
  induction d as [|d IH]; [done|].
  rewrite count_if_cycle_trace, IH. simpl. lia.
Qed.

(** The calls of [cycle] on a sequence of [k + 1] levels during a cycle on
    [k + 2 + j] levels. *)
Lemma count_call_cycle_trace prm k j :
  count_ev (EvCall (S k)) (cycle_trace prm (S (S k) + j))
  = ncycle prm ^ (S j).
Proof.
  unfold count_ev. induction j as [|j IH].
  - rewrite Nat.add_0_r, count_if_cycle_trace.
    assert (Hlow : ∀ d, d ≤ S k →
      count_if (λ e', bool_decide (e' = EvCall (S k))) (cycle_trace prm d)
      = 0).
    { clear. intros d. induction d as [|[|d] IH]; intros Hd; [done..|].
      rewrite count_if_cycle_trace, IH by lia. simpl.
      rewrite bool_decide_eq_false_2 by (intros [=]; lia). lia. }
    rewrite Hlow by lia. simpl. rewrite bool_decide_eq_true_2 by done. lia.
  - replace (S (S k) + S j) with (S (S (S k + j))) by lia.
    rewrite count_if_cycle_trace.
    replace (S (S k + j)) with (S (S k) + j) by lia. rewrite IH. simpl.
    rewrite bool_decide_eq_false_2 by (intros [=]; lia).
    change (ncycle prm ^ S j) with (ncycle prm * ncycle prm ^ j). lia.
Qed.

Lemma descend_app cur pending tr1 tr2 :
  descend cur pending (tr1 ++ tr2)
  = ('(c, q, ds1) ← descend cur pending tr1;
     '(c', q', ds2) ← descend c q tr2;
     Some (c', q', ds1 ++ ds2)).
Proof.
  revert cur pending. induction tr1 as [|e tr1 IH]; intros cur pending; simpl.
  { by destruct (descend cur pending tr2) as [[[? ?] ?]|]. }
  destruct e; try apply IH.
  - destruct (decide (cur = S r)); [apply IH|done].
  - destruct (decide (cur = r)); [apply IH|done].
  - destruct (decide (cur = 1 ∧ r = 1)); [|done]. rewrite IH.
    destruct (descend cur pending tr1) as [[[c q] ds1]|]; simpl; [|done].
    by destruct (descend c q tr2) as [[[? ?] ?]|].
Qed.

Lemma descend_relax cur pending k r :
  descend cur pending (replicate k (EvRelax r)) = Some (cur, pending, []).
Proof. induction k as [|k IH]; simpl; done. Qed.

(** In the trace of a cycle on [d] levels every call goes one level down,
    every return one level up, and each of the [ncycle ^ (d - 1)] direct
    solves happens on the last level, [d - 1] calls below the start. *)
Lemma descend_cycle_trace prm d :
  ∀ pending,
  descend (S d) pending (cycle_trace prm (S d))
  = Some (S d, pending, replicate (ncycle prm ^ d) (pending + d)).
Proof.
  induction d as [|d IH]; intros pending.
  { simpl. by rewrite Nat.add_0_r. }
  change (cycle_trace prm (S (S d))) with
    (mjoin (replicate (ncycle prm)
       (replicate (npre prm) (EvRelax (S (S d)))
        ++ [EvResidual (S (S d)); EvRestrict (S (S d)); EvZero (S d);
            EvCall (S d)]
        ++ cycle_trace prm (S d)
        ++ [EvReturn (S d); EvProlong (S (S d))]
        ++ replicate (npost prm) (EvRelax (S (S d)))))).
  change (ncycle prm ^ S d) with (ncycle prm * ncycle prm ^ d).
  set (it := replicate (npre prm) (EvRelax (S (S d))) ++ _).
  assert (Hit : ∀ q, descend (S (S d)) q it
                     = Some (S (S d), q, replicate (ncycle prm ^ d) (q + S d))).
  { intros q. unfold it. rewrite descend_app, descend_relax.
    cbn [mbind option_bind app descend].
    rewrite decide_True by done. rewrite descend_app, IH.
    cbn [mbind option_bind app descend].
    rewrite decide_True by done. rewrite descend_relax.
    cbn [mbind option_bind app]. rewrite app_nil_r.
    replace (S q - 1) with q by lia. do 3 f_equal. lia. }
  clearbody it. clear IH. revert Hit.
  generalize (ncycle prm ^ d) as m. intros m Hit.
  induction (ncycle prm) as [|k IHk]; [done|].
  change (mjoin (replicate (S k) it)) with (it ++ mjoin (replicate k it)).
  rewrite descend_app, Hit.
  cbn [mbind option_bind]. rewrite IHk. cbn [mbind option_bind].
  by rewrite <- replicate_add.
Qed.

End TraceFacts.

(** ** The trace of a run, run again *)

Section ReplayFacts.
Context {V : Type} `{Scalar V}.
Local Open Scope scalar_scope.
Implicit Types (lvl nxt : cpu V) (lvls sub rest : list (cpu V)).
Implicit Types (x rhs w : list V) (tr : list event).
Implicit Types (stack : list (cpu V * list V * list V)).

Lemma replay_app same tr1 tr2 m :
  replay same (tr1 ++ tr2) m
  = (m' ← replay same tr1 m; replay (V:=V) same tr2 m').
Proof.
  revert m. induction tr1 as [|e tr1 IH]; intros m; simpl; [done|].
  destruct (run_event same e m) as [m1|]; simpl; [apply IH|done].
Qed.

Lemma same_A_refl lvls : same_A lvls lvls.
Proof. induction lvls; constructor; done. Qed.

Lemma same_A_trans (l1 l2 l3 : list (cpu V)) :
  same_A l1 l2 → same_A l2 l3 → same_A l1 l3.
Proof.
  unfold same_A. intros H12. revert l3.
  induction H12 as [|a b l1 l2 Hab _ IH]; intros l3 H23;
    inversion H23 as [|b' c l2' l3' Hbc H23']; subst; constructor.
  - congruence.
  - by apply IH.
Qed.

Lemma relax_same_A same lvl rhs x lvl' x' :
  relax same lvl rhs x = Some (lvl', x') → A lvl' = A lvl.
Proof.
  unfold relax. destruct (for_each _ _ _) as [t1|]; simpl; [|done].
  destruct (vector_copy same t1 x) as [[t2 x2]|]; simpl; [|done].
  by intros [= <- <-].
Qed.

(** The sweeps of [relax_loop] are the sweeps their events run. *)
Lemma relax_loop_replay same stack rest rhs k r :
  ∀ lvl x tr0 lvl' x' tr1,
  relax_loop (commit same stack) k r rhs (lvl, x, tr0)
  = Some (lvl', x', tr1) →
  r = S (length rest) →
  ∃ trr,
    tr1 = tr0 ++ trr
    ∧ replay same trr (stack, lvl :: rest, rhs, x)
      = Some (stack, lvl' :: rest, rhs, x')
    ∧ A lvl' = A lvl.
Proof.
  unfold relax_loop. generalize (seq 0 k) as js.
  induction js as [|j js IH]; intros lvl x tr0 lvl' x' tr1 Hrun Hr.
  { simpl in Hrun. injection Hrun as <- <- <-. exists [].
    by rewrite app_nil_r. }
  simpl in Hrun.
  destruct (relax (commit same stack) lvl rhs x) as [[l1 x1]|] eqn:E;
    simpl in Hrun; [|done].
  destruct (IH _ _ _ _ _ _ Hrun Hr) as (trr & -> & Hrep & HA).
  exists (EvRelax r :: trr). split; [by rewrite <- app_assoc|].
  split.
  - simpl. rewrite decide_True by done. rewrite E. simpl. exact Hrep.
  - rewrite HA. by apply (relax_same_A _ _ _ _ _ _ E).
Qed.

(** One run of the loop body is the run of its events, when this holds of
    the recursive call. *)
Lemma cycle_body_replay same stack rec prm rhs lvl nxt rest x tr0 l' x' tr1 :
  (∀ sub f0 u0 sub' u' trc frame,
     rec sub f0 u0 = Some (sub', u', trc) →
     replay same trc (frame :: stack, sub, f0, u0)
     = Some (frame :: stack, sub', f0, u')
     ∧ same_A sub sub') →
  cycle_body rec (commit same stack) prm (rows (A lvl)) (rows (A nxt)) rhs
    (lvl :: nxt :: rest, x, tr0) = Some (l', x', tr1) →
  ∃ trr,
    tr1 = tr0 ++ trr
    ∧ replay same trr (stack, lvl :: nxt :: rest, rhs, x)
      = Some (stack, l', rhs, x')
    ∧ same_A (lvl :: nxt :: rest) l'.
Proof.
  intros Hrec. unfold cycle_body. cbv zeta.
  destruct (relax_loop _ _ _ _ _) as [[[lvl1 x1] tr1']|] eqn:E1;
    cbn [mbind option_bind]; [|done].
  destruct (relax_loop_replay same stack (nxt :: rest) rhs _ _ _ _ _ _ _ _
              E1 eq_refl) as (trr1 & -> & Hrep1 & HA1).
  destruct (for_each _ _ (t lvl1)) as [t1|] eqn:E2;
    cbn [mbind option_bind]; [|done].
  destruct (for_each _ _ (f nxt)) as [f1|] eqn:E3;
    cbn [mbind option_bind]; [|done].
  set (lvlc := set_t lvl1 t1) in *.
  set (nxt1 := set_u (set_f nxt f1)
                 (replicate (length (u (set_f nxt f1))) vzero)) in *.
  destruct (rec _ _ _) as [[[sub u'] trc]|] eqn:E4;
    cbn [mbind option_bind]; [|done].
  destruct (Hrec _ _ _ _ _ _ (lvlc, rhs, x1) E4) as [Hrepc HAc].
  destruct sub as [|nxt2 rest2]; [done|].
  inversion HAc as [|? ? ? ? HAn HAr]; subst.
  assert (Hlen : length rest2 = length rest).
  { symmetry. by apply (Forall2_length _ _ _ HAr). }
  destruct (for_each _ _ x1) as [x2|] eqn:E5;
    cbn [mbind option_bind]; [|done].
  destruct (relax_loop _ _ _ _ (lvlc, x2, _)) as [[[lvl3 x3] tr3]|] eqn:E6;
    cbn [mbind option_bind]; [|done].
  destruct (relax_loop_replay same stack (set_u nxt2 u' :: rest2) rhs
              _ _ _ _ _ _ _ _ E6) as (trr6 & -> & Hrep6 & HA6).
  { simpl. by rewrite Hlen. }
  intros [= <- <- <-].
  eexists. split.
  { rewrite <- !app_assoc. reflexivity. }
  split.
  - rewrite replay_app, Hrep1. cbn [mbind option_bind].
    rewrite <- HA1 in E2, E5.
    cbn [app replay run_event mbind option_bind].
    rewrite decide_True by done. rewrite E2.
    cbn [app replay run_event mbind option_bind].
    rewrite decide_True by done. fold lvlc. rewrite E3.
    cbn [app replay run_event mbind option_bind].
    rewrite decide_True by done.
    cbn [app replay run_event mbind option_bind].
    rewrite decide_True by done. fold nxt1. cbn [mbind option_bind].
    rewrite <- app_assoc, replay_app, Hrepc.
    cbn [app replay run_event mbind option_bind].
    rewrite decide_True by done.
    cbn [app replay run_event mbind option_bind].
    rewrite decide_True by (simpl; lia).
    change (rows (A lvlc)) with (rows (A lvl1)).
    rewrite E5. cbn [mbind option_bind]. exact Hrep6.
  - constructor; [by rewrite HA6, <- HA1|].
    constructor; [|done]. simpl. by rewrite HAn.
Qed.

(** The trace of a run is a faithful script of it: running the events of
    the trace one by one, each as the step of [cycle] it names, leads from
    the arguments of the call to the levels and the [x] that the call
    returns. *)
Lemma cycle_rec_replay same prm d :
  ∀ stack lvls rhs x lvls' x' tr,
  cycle_rec d (commit same stack) prm lvls rhs x = Some (lvls', x', tr) →
  replay same tr (stack, lvls, rhs, x) = Some (stack, lvls', rhs, x')
  ∧ same_A lvls lvls'.
Proof.
  induction d as [|d IH]; intros stack lvls rhs x lvls' x' tr Hrun; [done|].
  destruct lvls as [|lvl [|nxt rest]]; [done| |].
  - simpl in Hrun.
    destruct (for_each _ _ x) as [x1|] eqn:E; simpl in Hrun; [|done].
    injection Hrun as <- <- <-. split; [|apply same_A_refl].
    cbn [replay run_event mbind option_bind].
    rewrite decide_True by done. by rewrite E.
  - change (cycle_rec (S d) (commit same stack) prm (lvl :: nxt :: rest)
              rhs x)
      with (for_each (seq 0 (ncycle prm))
              (λ _, cycle_body (cycle_rec d true prm) (commit same stack) prm
                      (rows (A lvl)) (rows (A nxt)) rhs)
              (lvl :: nxt :: rest, x, [])) in Hrun.
    enough (Hloop : ∀ js l0 x0 tr0 l1 x1 tr1,
      for_each js
        (λ _, cycle_body (cycle_rec d true prm) (commit same stack) prm
                (rows (A lvl)) (rows (A nxt)) rhs)
        (l0, x0, tr0) = Some (l1, x1, tr1) →
      same_A (lvl :: nxt :: rest) l0 →
      ∃ trr, tr1 = tr0 ++ trr
        ∧ replay same trr (stack, l0, rhs, x0) = Some (stack, l1, rhs, x1)
        ∧ same_A (lvl :: nxt :: rest) l1).
    { destruct (Hloop _ _ _ _ _ _ _ Hrun (same_A_refl _))
        as (trr & -> & Hrep & HA). done. }
    induction js as [|j js IHjs]; intros l0 x0 tr0 l1 x1 tr1 Hfor HA0.
    { simpl in Hfor. injection Hfor as <- <- <-. exists [].
      by rewrite app_nil_r. }
    cbn [for_each] in Hfor.
    destruct (cycle_body _ _ _ _ _ _ (l0, x0, tr0)) as [[[l2 x2] tr2]|]
      eqn:Eb; cbn [mbind option_bind] in Hfor; [|done].
    inversion HA0 as [|? a ? t1 Ha Ht1]; subst.
    inversion Ht1 as [|? b ? r Hb Hr]; subst.
    rewrite <- Ha, <- Hb in Eb.
    destruct (cycle_body_replay same stack (cycle_rec d true prm) prm rhs
                a b r x0 tr0 l2 x2 tr2) as (trr2 & -> & Hrep2 & HA2);
      [|exact Eb|].
    { intros sub f0 u0 sub' u' trc frame Hsub.
      apply (IH (frame :: stack)). exact Hsub. }
    destruct (IHjs _ _ _ _ _ _ Hfor) as (trr & -> & Hrep & HA1).
    { by apply (same_A_trans _ _ _ HA0). }
    exists (trr2 ++ trr). split; [by rewrite app_assoc|]. split; [|done].
    rewrite replay_app, Hrep2. exact Hrep.
Qed.

End ReplayFacts.


Section DepthClaims.
Context {V : Type} `{Scalar V}.
Local Open Scope scalar_scope.
Implicit Types (lvl nxt : cpu V) (lvls sub rest : list (cpu V)).
Implicit Types (x rhs w : list V) (tr : list event).

(** What [cycle] returns on a well-formed sequence, and its trace. *)
Lemma cycle_run same prm lvls rhs x :
  hier_ok lvls = true → args_ok lvls rhs x = true →
  ∃ lvls' x',
    cycle same prm lvls rhs x
    = Some (lvls', x', cycle_trace prm (length lvls))
    ∧ length lvls' = length lvls.
Proof.
  intros Hok Hargs.
  destruct (cycle_rec_vcycle prm (length lvls) same lvls rhs x Hok Hargs)
    as (Hrun & Hsh & _ & Htr); [done|].
  unfold cycle. rewrite Hrun.
  destruct (vcycle (length lvls) same prm lvls rhs x) as [[lvls' x'] tr].
  simpl in *. subst tr. exists lvls', x'. split; [done|].
  symmetry. by apply hier_shape_length.
Qed.

(** C6. [cycle] terminates. The recursion descends on the distance
    between [lvl] and [end]: whatever depth [d] at least the length of the
    sequence is allowed, the run is the same, so the recursion is never
    deeper than the sequence is long. On a well-formed sequence the run
    succeeds, and in its trace every recursive call is on a sequence exactly
    one level shorter than the caller's, and every direct solve happens on
    the last level with exactly [length lvls - 1] calls pending. *)
Theorem cycle_terminates same prm lvls rhs x :
  (∀ d, length lvls ≤ d →
     cycle_rec d same prm lvls rhs x = cycle same prm lvls rhs x)
  ∧ (hier_ok lvls = true → args_ok lvls rhs x = true →
     ∃ lvls' x' tr,
       cycle same prm lvls rhs x = Some (lvls', x', tr)
       ∧ length lvls' = length lvls
       ∧ descend (length lvls) 0 tr
         = Some (length lvls, 0,
                 replicate (ncycle prm ^ (length lvls - 1))
                   (length lvls - 1))).
Proof.
  split.
  - intros d Hd. unfold cycle. by apply cycle_rec_depth.
  - intros Hok Hargs.
    destruct (cycle_run same prm lvls rhs x Hok Hargs)
      as (lvls' & x' & Hrun & Hlen).
    exists lvls', x', (cycle_trace prm (length lvls)).
    split; [done|]. split; [done|].
    destruct lvls as [|lvl rest]; [done|].
    change (length (lvl :: rest)) with (S (length rest)).
    rewrite descend_cycle_trace. simpl. by rewrite Nat.sub_0_r.
Qed.

(** C7. On a well-formed sequence of [d] levels one call of [cycle]
    succeeds, and its trace is a script of the run: executing the events one
    by one, each as the statement of [cycle] it names (a restriction event
    runs the product with [R] into [nxt->f], a call event enters [cycle] on
    the rest of the sequence, a solve event runs the product with [Ai] on
    the last level, and so on), leads from the arguments to the very levels
    and [x] that [cycle] returns. In that script there are
    [ncycle ^ (d - 1)] direct solves and
    [ncycle + ncycle^2 + ... + ncycle^(d-1)] restrictions and as many
    prolongations; with [ncycle = 1] these are [d - 1] restrictions and
    [d - 1] prolongations; with three levels and [ncycle = 2], [cycle] is
    entered on the second level twice and on the third level four times,
    and the direct solve runs four times. *)
Theorem cycle_operation_counts same prm lvls rhs x :
  hier_ok lvls = true → args_ok lvls rhs x = true →
  ∃ lvls' x' tr,
    cycle same prm lvls rhs x = Some (lvls', x', tr)
    ∧ replay same tr ([], lvls, rhs, x) = Some ([], lvls', rhs, x')
    ∧ count_if is_solve tr = ncycle prm ^ (length lvls - 1)
    ∧ count_if is_restrict tr = descents (ncycle prm) (length lvls - 1)
    ∧ count_if is_prolong tr = descents (ncycle prm) (length lvls - 1)
    ∧ (ncycle prm = 1 →
       count_if is_restrict tr = length lvls - 1
       ∧ count_if is_prolong tr = length lvls - 1)
    ∧ (length lvls = 3 → ncycle prm = 2 →
       count_ev (EvCall 2) tr = 2 ∧ count_ev (EvCall 1) tr = 4
       ∧ count_if is_solve tr = 4).
Proof.
  intros Hok Hargs.
  destruct (cycle_run same prm lvls rhs x Hok Hargs)
    as (lvls' & x' & Hrun & Hlen).
  exists lvls', x', (cycle_trace prm (length lvls)). split; [done|].
  split.
  { by apply (cycle_rec_replay same prm (length lvls) []). }
  destruct lvls as [|lvl rest]; [done|].
  change (length (lvl :: rest)) with (S (length rest)).
  replace (S (length rest) - 1) with (length rest) by lia.
  split; [apply count_solve_cycle_trace|].
  split; [apply count_restrict_descents|].
  split; [apply count_prolong_descents|]. split.
  - intros Hn. split.
    + by apply count_restrict_cycle_trace.
    + by apply count_prolong_cycle_trace.
  - intros [= Hd] Hn. rewrite Hd.
    assert (H2 : count_ev (EvCall 2) (cycle_trace prm 3) = ncycle prm ^ 1)
      by exact (count_call_cycle_trace prm 1 0).
    assert (H1 : count_ev (EvCall 1) (cycle_trace prm 3) = ncycle prm ^ 2)
      by exact (count_call_cycle_trace prm 0 1).
    rewrite H2, H1, count_solve_cycle_trace, Hn. done.
Qed.

End DepthClaims.

Lemma cycle_terminates_witness :
  ∃ lvls' x' tr,
    cycle false (Params 2 1 1) hier3 [qz 1; qz 1] [qz 0; qz 0]
    = Some (lvls', x', tr)
    ∧ length lvls' = 3
    ∧ descend 3 0 tr = Some (3, 0, [2; 2; 2; 2]).
Proof.
  apply (cycle_terminates false (Params 2 1 1) hier3
           [qz 1; qz 1] [qz 0; qz 0]); reflexivity.
Defined.

Lemma cycle_operation_counts_witness :
  (∃ lvls' x' tr,
     cycle false (Params 1 1 1) hier3 [qz 1; qz 1] [qz 0; qz 0]
     = Some (lvls', x', tr)
     ∧ replay false tr ([], hier3, [qz 1; qz 1], [qz 0; qz 0])
       = Some ([], lvls', [qz 1; qz 1], x')
     ∧ count_if is_solve tr = 1
     ∧ count_if is_restrict tr = 2 ∧ count_if is_prolong tr = 2)
  ∧ (∃ lvls' x' tr,
       cycle false (Params 2 1 1) hier3 [qz 1; qz 1] [qz 0; qz 0]
       = Some (lvls', x', tr)
       ∧ replay false tr ([], hier3, [qz 1; qz 1], [qz 0; qz 0])
         = Some ([], lvls', [qz 1; qz 1], x')
       ∧ count_ev (EvCall 2) tr = 2 ∧ count_ev (EvCall 1) tr = 4
       ∧ count_if is_solve tr = 4
       ∧ count_if is_restrict tr = 6 ∧ count_if is_prolong tr = 6).
Proof.
  split.
  - destruct (cycle_operation_counts false (Params 1 1 1) hier3
                [qz 1; qz 1] [qz 0; qz 0] eq_refl eq_refl)
      as (lvls' & x' & tr & Hrun & Hrep & Hs & _ & _ & Hone & _).
    destruct (Hone eq_refl) as [Hr Hp].
    exists lvls', x', tr. repeat split; assumption.
  - destruct (cycle_operation_counts false (Params 2 1 1) hier3
                [qz 1; qz 1] [qz 0; qz 0] eq_refl eq_refl)
      as (lvls' & x' & tr & Hrun & Hrep & _ & Hr & Hp & _ & Htwo).
    destruct (Htwo eq_refl eq_refl) as (H2 & H1 & Hs).
    exists lvls', x', tr. repeat split; assumption.
Defined.

(** ** Runs on the rationals

    The kernel evaluated on the small hierarchy [hier3], with the values
    read as fractions. *)

(** One sweep from [x = 0] with [rhs = (1 1)]: both rows get
    [0.72 * (1 / 2)]. *)
Example relax_run :
  (map this ∘ snd) <$> relax true lvl_fine [qz 1; qz 1] [qz 0; qz 0]
  = Some [9 # 25; 9 # 25]%Q.
Proof. vm_compute. reflexivity. Qed.

(** The residual norm of [x = 0] is the norm of [rhs]. *)
Example resid_run :
  this <$> resid lvl_fine [qz 3; qz 4] [qz 0; qz 0] = Some 5%Q.
Proof. vm_compute. reflexivity. Qed.

(** One V-cycle on three levels with one sweep before and after: the
    iterate reaches the solution [(1 1)] of [A x = (1 1)], and the steps
    come in the order of section 4.3. *)
Example cycle_run_three_levels :
  (λ r, (map this r.1.2, r.2))
    <$> cycle false (Params 1 1 1) hier3 [qz 1; qz 1] [qz 0; qz 0]
  = Some ([1; 1]%Q,
          [EvRelax 3; EvResidual 3; EvRestrict 3; EvZero 2; EvCall 2;
           EvRelax 2; EvResidual 2; EvRestrict 2; EvZero 1; EvCall 1;
           EvSolve 1;
           EvReturn 1; EvProlong 2; EvRelax 2;
           EvReturn 2; EvProlong 3; EvRelax 3]).
Proof. vm_compute. reflexivity. Qed.

(** A two-level cycle without smoothing from [x = 0]: the residual is
    [rhs], its restriction [2], the coarse solve [1], and the correction
    [P u = (1 1)] is added to [x]. *)
Example cycle_run_two_levels :
  (λ r, (map this r.1.2, map (λ l, map this (u l)) r.1.1))
    <$> cycle false (Params 1 0 0) [lvl_fine; lvl_last]
          [qz 1; qz 1] [qz 0; qz 0]
  = Some ([1; 1]%Q, [[]; [1%Q]]).
Proof. vm_compute. reflexivity. Qed.

(** * Further properties of the code *)

Section MoreFacts.
Context {V : Type} `{Scalar V}.
Local Open Scope scalar_scope.
Implicit Types (lvl nxt : cpu V) (lvls sub rest : list (cpu V)).
Implicit Types (x rhs w : list V) (tr : list event) (M : matrix V).

Local Abbreviation state := (list (cpu V) * list V * list event)%type.

(** A loop stops at the first index whose body fails. *)
Lemma for_each_none_at {St : Type} (I : St → Prop) js1 j js2
    (body : nat → St → option St) (s : St) :
  I s → (∀ i s1 s2, I s1 → body i s1 = Some s2 → I s2) →
  (∀ s', I s' → body j s' = None) →
  for_each (js1 ++ j :: js2) body s = None.
Proof.
  intros Hs Hinv Hj. rewrite for_each_app.
  destruct (for_each js1 body s) as [s1|] eqn:E; simpl; [|done].
  rewrite Hj; [done|]. by apply (for_each_preserves I js1 body s s1).
Qed.

Lemma seq_split_at n k :
  k < n → seq 0 n = seq 0 k ++ k :: seq (S k) (n - S k).
Proof.
  intros Hk. replace n with (k + S (n - S k)) at 1 by lia.
  by rewrite seq_app.
Qed.

Lemma store_length w i a w' : store w i a = Some w' → length w' = length w.
Proof.
  unfold store. destruct (decide (i < length w)); [|done].
  intros [= <-]. by rewrite length_insert.
Qed.

(** The iterates of [sweep]: the level only changes its buffer [t], and the
    vector follows the Jacobi iteration. *)
Lemma sweeps_pure same k lvl rhs x :
  ∃ w, Nat.iter k (sweep same rhs) (lvl, x)
       = (set_t lvl w, Nat.iter k (jacobi (A lvl) rhs) x).
Proof.
  induction k as [|k [w IH]]; simpl.
  { exists (t lvl). by destruct lvl. }
  rewrite IH. simpl. by eexists.
Qed.

Lemma length_jacobi_iter k M rhs x :
  length x = rows M → length (Nat.iter k (jacobi M rhs) x) = rows M.
Proof. intros Hx. destruct k; simpl; [done|apply length_jacobi]. Qed.

(** X1. Levels built by the constructors have scratch vectors of the right
    sizes. Take a sequence [nxt :: rest] that is already well-formed and
    whose first level [nxt] was built with [has_parent = true] or by the
    constructor of the last level. An interior level built by the
    three-operator constructor, with or without parent, and put in front of
    it makes a well-formed sequence again, provided its three operators fit
    the sizes of the two levels; and [cycle] then succeeds on it for [rhs]
    and [x] of the size of the new level. *)
Theorem constructed_sequence_ok dflt same prm a p r hp nxt rest rhs x :
  (∃ a2 p2 r2, nxt = cpu_interior dflt a2 p2 r2 true)
  ∨ (∃ a2 ai2, nxt = cpu_terminal dflt a2 ai2) →
  matrix_ok a (rows a) (rows a) = true →
  matrix_ok r (rows (A nxt)) (rows a) = true →
  matrix_ok p (rows a) (rows (A nxt)) = true →
  hier_ok (nxt :: rest) = true →
  length rhs = rows a → length x = rows a →
  hier_ok (cpu_interior dflt a p r hp :: nxt :: rest) = true
  ∧ is_Some (cycle same prm (cpu_interior dflt a p r hp :: nxt :: rest)
               rhs x).
Proof.
  intros Hnxt Ha Hr Hp Hrest Hrhs Hx.
  assert (Hok : hier_ok (cpu_interior dflt a p r hp :: nxt :: rest) = true).
  { apply hier_ok_step.
    assert (length (u nxt) = rows (A nxt) ∧ length (f nxt) = rows (A nxt))
      as [Hu Hf].
    { destruct Hnxt as [(a2 & p2 & r2 & ->)|(a2 & ai2 & ->)]; simpl;
        by rewrite length_replicate. }
    destruct hp; simpl; rewrite length_replicate; done. }
  split; [done|].
  destruct (cycle_run same prm _ rhs x Hok) as (lvls' & x' & -> & _).
  - apply args_ok_cons. by destruct hp.
  - by eexists.
Qed.

(** A successor whose [f] is empty cannot take the restricted residual. *)
Lemma cycle_empty_f same prm lvl nxt rest rhs x :
  f nxt = [] → 0 < rows (A nxt) → 0 < ncycle prm →
  cycle same prm (lvl :: nxt :: rest) rhs x = None.
Proof.
  intros Hf Hnc Hn. unfold cycle.
  change (cycle_rec (length (lvl :: nxt :: rest)) same prm
            (lvl :: nxt :: rest) rhs x)
    with (for_each (seq 0 (ncycle prm))
            (λ _, cycle_body (cycle_rec (S (length rest)) true prm) same prm
                    (rows (A lvl)) (rows (A nxt)) rhs)
            (lvl :: nxt :: rest, x, [])).
  destruct (ncycle prm) as [|k]; [lia|]. simpl.
  destruct (relax_loop _ _ _ _ _) as [[[lvl1 x1] tr1]|]; simpl; [|done].
  destruct (for_each _ _ (t lvl1)) as [t1|]; simpl; [|done].
  rewrite Hf. destruct (rows (A nxt)) as [|m]; [lia|]. simpl.
  by destruct (gather_row _ _ 0).
Qed.

(** X2. A level built with [has_parent = false] has no room in [f] and
    [u]: placed after another level, with at least one row and
    [ncycle > 0], it makes [cycle] run out of range when the residual is
    restricted into its [f], whatever the other sizes are. *)
Theorem cycle_successor_without_parent dflt same prm lvl a p r rest rhs x :
  0 < rows a → 0 < ncycle prm →
  cycle same prm (lvl :: cpu_interior dflt a p r false :: rest) rhs x = None.
Proof. intros Ha Hn. by apply cycle_empty_f. Qed.

(** X3. [relax] reads [rhs[i]] and [x[i]] and writes [t[i]] for every row
    [i] of [A]: with any of the three vectors shorter than [A.rows] it runs
    out of range, on either commit path. *)
Theorem relax_undersized same lvl rhs x :
  length x < rows (A lvl) ∨ length rhs < rows (A lvl)
  ∨ length (t lvl) < rows (A lvl) →
  relax same lvl rhs x = None.
Proof.
  intros Hshort. unfold relax.
  assert (Hloop : for_each (seq 0 (rows (A lvl)))
            (λ i w, a ← relax_row (A lvl) rhs x i; store w i a) (t lvl)
          = None); [|by rewrite Hloop].
  pose (I := λ w : list V, length w = length (t lvl)).
  assert (Hinv : ∀ i w1 w2, I w1 →
            (a ← relax_row (A lvl) rhs x i; store w1 i a) = Some w2 → I w2).
  { intros i w1 w2 Hw1. destruct (relax_row _ _ _ i); simpl; [|done].
    intros Hst%store_length. unfold I in *. congruence. }
  destruct Hshort as [Hx|[Hrhs|Ht]].
  - rewrite (seq_split_at _ (length x)) by done.
    apply (for_each_none_at I); [done|done|]. intros w _.
    unfold relax_row.
    destruct (rhs !! length x); simpl; [|done].
    destruct (row (A lvl) !! length x); simpl; [|done].
    destruct (row (A lvl) !! (length x + 1)); simpl; [|done].
    destruct (for_each _ _ _) as [[temp diag]|]; simpl; [|done].
    by rewrite (lookup_ge_None_2 x (length x)).
  - rewrite (seq_split_at _ (length rhs)) by done.
    apply (for_each_none_at I); [done|done|]. intros w _.
    unfold relax_row. by rewrite (lookup_ge_None_2 rhs (length rhs)).
  - rewrite (seq_split_at _ (length (t lvl))) by done.
    apply (for_each_none_at I); [done|done|]. intros w Hw.
    destruct (relax_row _ _ _ _); simpl; [|done].
    unfold store. rewrite decide_False; [done|]. unfold I in Hw. lia.
Qed.

(** X4. [relax] on vectors longer than the level: the rows are updated
    from the first [A.rows] components; the swap leaves [x] with [A.rows]
    components and moves the whole old [x] into [t], while the copy keeps
    the length of [x] and its components from [A.rows] on. *)
Theorem relax_oversized lvl rhs x :
  matrix_ok (A lvl) (rows (A lvl)) (rows (A lvl)) = true →
  length (t lvl) = rows (A lvl) →
  rows (A lvl) ≤ length rhs → rows (A lvl) ≤ length x →
  relax true lvl rhs x = Some (set_t lvl x, jacobi (A lvl) rhs x)
  ∧ relax false lvl rhs x
    = Some (set_t lvl (jacobi (A lvl) rhs x),
            jacobi (A lvl) rhs x ++ drop (rows (A lvl)) x).
Proof.
  intros HA Ht Hrhs Hx.
  assert (Hloop : for_each (seq 0 (rows (A lvl)))
            (λ i w, a ← relax_row (A lvl) rhs x i; store w i a) (t lvl)
          = Some (jacobi (A lvl) rhs x)).
  { rewrite (for_each_store _ (λ i _, relax_row (A lvl) rhs x i)
               (jacobi_row (A lvl) rhs x)) by
      (try lia; intros i Hi;
       apply (relax_row_ok _ (rows (A lvl))); try lia;
       by apply (matrix_ok_row _ (rows (A lvl)))).
    rewrite drop_ge by lia. by rewrite app_nil_r. }
  unfold relax. rewrite Hloop. simpl. split; [done|].
  rewrite length_jacobi, decide_True by done. done.
Qed.

(** X5. Calls of [relax] compose: on a level and arguments of matching
    sizes, [k] calls in a row all succeed, change nothing of the level but
    its buffer [t], and return the [k]-th Jacobi iterate of [x]. *)
Theorem relax_iterates same k lvl rhs x :
  relax_ok lvl rhs x = true →
  ∃ w,
    Nat.iter k (λ o, '(l, y) ← o; relax same l rhs y) (Some (lvl, x))
    = Some (set_t lvl w, Nat.iter k (jacobi (A lvl) rhs) x)
    ∧ length w = rows (A lvl).
Proof.
  intros Hok. pose proof Hok as (HA & Ht & Hrhs & Hx)%relax_ok_inv.
  induction k as [|k (w & IH & Hw)]; simpl.
  { exists (t lvl). by destruct lvl. }
  rewrite IH. simpl.
  rewrite relax_sweep.
  - simpl. eexists. split; [reflexivity|].
    destruct same; [by apply length_jacobi_iter|apply length_jacobi].
  - apply (relax_ok_set_t _ _ x); [done|done|].
    by apply length_jacobi_iter.
Qed.

(** X6. [cycle] keeps what it needs: after a call on a well-formed
    sequence the levels have the same operators and scratch vectors of the
    same sizes, [x] has the same length, and a second call on the result
    succeeds as well. *)
Theorem cycle_keeps_hierarchy same prm lvls rhs x :
  hier_ok lvls = true → args_ok lvls rhs x = true →
  ∃ lvls' x' tr,
    cycle same prm lvls rhs x = Some (lvls', x', tr)
    ∧ hier_shape lvls lvls' ∧ length x' = length x
    ∧ hier_ok lvls' = true ∧ args_ok lvls' rhs x' = true
    ∧ is_Some (cycle same prm lvls' rhs x').
Proof.
  intros Hok Hargs.
  destruct (cycle_rec_vcycle prm (length lvls) same lvls rhs x Hok Hargs)
    as (Hrun & Hsh & Hlen & _); [done|].
  unfold cycle at 1. rewrite Hrun.
  destruct (vcycle (length lvls) same prm lvls rhs x) as [[lvls' x'] tr].
  simpl in *. exists lvls', x', tr. split; [done|].
  pose proof (hier_ok_shape _ _ Hsh Hok) as Hok'.
  assert (Hargs' : args_ok lvls' rhs x' = true).
  { destruct Hsh as [|lvl lvl' rest rest' Hl Hr]; [done|].
    apply args_ok_cons in Hargs as [Hrhs Hx]. apply args_ok_cons.
    destruct Hl as (-> & _). split; congruence. }
  repeat split; try done.
  destruct (cycle_run same prm lvls' rhs x' Hok' Hargs')
    as (? & ? & -> & _). by eexists.
Qed.

(** The sweeps on the level of sequence length [r] during a cycle on
    [d + 1] levels. *)
Lemma count_relax_cycle_trace prm d r :
  2 ≤ r ≤ S d →
  count_ev (EvRelax r) (cycle_trace prm (S d))
  = (npre prm + npost prm) * ncycle prm ^ (S (S d) - r).
Proof.
  unfold count_ev. revert r. induction d as [|d IH]; intros r Hr; [lia|].
  rewrite count_if_cycle_trace.
  destruct (decide (r = S (S d))) as [->|Hne].
  - assert (Hlow : ∀ k, k ≤ S d →
      count_if (λ e', bool_decide (e' = EvRelax (S (S d))))
        (cycle_trace prm k) = 0).
    { clear. intros k. induction k as [|[|k] IHk]; intros Hk; [done..|].
      rewrite count_if_cycle_trace, IHk by lia. simpl.
      rewrite bool_decide_eq_false_2 by (intros [=]; lia). lia. }
    rewrite Hlow by lia.
    replace (S (S (S d)) - S (S d)) with 1 by lia.
    rewrite Nat.pow_1_r. cbn [is_relax].
    rewrite bool_decide_eq_true_2 by done.
    rewrite !bool_decide_eq_false_2 by done. lia.
  - rewrite IH by lia.
    replace (S (S (S d)) - r) with (S (S (S d) - r)) by lia.
    rewrite Nat.pow_succ_r'.
    rewrite !bool_decide_eq_false_2 by congruence. lia.
Qed.

(** X7. The sweeps of one call of [cycle] on [d] levels. The trace of the
    call is a script of the run: executing its events one by one, a sweep
    event as [lvl->relax(rhs, x)] on the level at hand and every other
    event as the statement of [cycle] it names, leads from the arguments to
    the levels and the [x] that [cycle] returns. In that script there is no
    sweep on the last level, and on the level with [r] levels from it to
    the end, [2 <= r <= d], there are
    [(npre + npost) * ncycle ^ (d + 1 - r)] sweeps; with [ncycle = 1]
    that is [npre + npost] on each of the [d - 1] levels but the last. *)
Theorem cycle_sweep_counts same prm lvls rhs x :
  hier_ok lvls = true → args_ok lvls rhs x = true →
  ∃ lvls' x' tr,
    cycle same prm lvls rhs x = Some (lvls', x', tr)
    ∧ replay same tr ([], lvls, rhs, x) = Some ([], lvls', rhs, x')
    ∧ count_ev (EvRelax 1) tr = 0
    ∧ (∀ r, 2 ≤ r ≤ length lvls →
         count_ev (EvRelax r) tr
         = (npre prm + npost prm) * ncycle prm ^ (S (length lvls) - r))
    ∧ (ncycle prm = 1 →
       count_if is_relax tr = (npre prm + npost prm) * (length lvls - 1)
       ∧ ∀ r, 2 ≤ r ≤ length lvls →
              count_ev (EvRelax r) tr = npre prm + npost prm).
Proof.
  intros Hok Hargs.
  destruct (cycle_run same prm lvls rhs x Hok Hargs)
    as (lvls' & x' & Hrun & _).
  exists lvls', x', (cycle_trace prm (length lvls)). split; [done|].
  split.
  { by apply (cycle_rec_replay same prm (length lvls) []). }
  destruct lvls as [|lvl rest]; [done|].
  change (length (lvl :: rest)) with (S (length rest)).
  replace (S (length rest) - 1) with (length rest) by lia.
  generalize (length rest) as d. clear. intros d. split; [|split].
  - unfold count_ev. induction d as [|d IH]; [done|].
    rewrite count_if_cycle_trace, IH. simpl. lia.
  - intros r Hr. by apply count_relax_cycle_trace.
  - intros Hn. split.
    + induction d as [|d IH]; [done|].
      rewrite count_if_cycle_trace, IH, Hn. simpl. lia.
    + intros r Hr. rewrite count_relax_cycle_trace by done.
      rewrite Hn, Nat.pow_1_l. lia.
Qed.

End MoreFacts.

Section ScratchFacts.
Context {V : Type} `{Scalar V}.
Local Open Scope scalar_scope.
Implicit Types (lvl nxt : cpu V) (lvls sub rest : list (cpu V)).
Implicit Types (x rhs w : list V) (tr : list event) (M : matrix V).

Local Abbreviation state := (list (cpu V) * list V * list event)%type.

Lemma level_shape_sym (l1 l2 : cpu V) :
  level_shape l1 l2 → level_shape l2 l1.
Proof.
  unfold level_shape. intros ?. destruct_and!. repeat split; congruence.
Qed.

Lemma hier_shape_sym (l1 l2 : list (cpu V)) :
  hier_shape l1 l2 → hier_shape l2 l1.
Proof.
  unfold hier_shape. induction 1; constructor; [|done].
  by apply level_shape_sym.
Qed.

(** The vector that one iteration of [two_grid] returns. *)
Lemma two_grid_snd coarse same prm n nc rhs lvl nxt rest x tr :
  (two_grid coarse same prm n nc rhs (lvl :: nxt :: rest, x, tr)).1.2
  = (let x1 := Nat.iter (npre prm) (jacobi (A lvl) rhs) x in
     let tv := defect (A lvl) n rhs x1 in
     let fv := mat_vec (R lvl) nc tv in
     let u0 := replicate (length (u nxt)) vzero in
     let u' := (coarse (set_u (set_f nxt fv) u0 :: rest) fv u0).1.2 in
     Nat.iter (npost prm) (jacobi (A lvl) rhs)
       (map (λ i, vget x1 i ⊕ row_dot (P lvl) u' i) (seq 0 n))).
Proof.
  unfold two_grid. cbv zeta.
  destruct (sweeps_pure same (npre prm) lvl rhs x) as [w ->].
  cbn [A R P set_t].
  destruct (coarse _ _ _) as [[sub u'] trc]. cbn [fst snd].
  destruct (sweeps_pure same (npost prm)
              (set_t (set_t lvl w)
                 (defect (A lvl) n rhs
                    (Nat.iter (npre prm) (jacobi (A lvl) rhs) x)))
              rhs
              (map (λ i, vget (Nat.iter (npre prm) (jacobi (A lvl) rhs) x) i
                         ⊕ row_dot (P lvl) u' i) (seq 0 n))) as [w' ->].
  done.
Qed.

(** One iteration of [two_grid] keeps the shape of a well-formed sequence
    and the length of the vector. *)
Lemma two_grid_shape prm d same lvl nxt rest rhs x tr :
  hier_ok (lvl :: nxt :: rest) = true →
  length rhs = rows (A lvl) → length x = rows (A lvl) →
  S (length rest) ≤ d →
  let s' := two_grid (vcycle d true prm) same prm
              (rows (A lvl)) (rows (A nxt)) rhs (lvl :: nxt :: rest, x, tr) in
  hier_shape (lvl :: nxt :: rest) s'.1.1 ∧ length s'.1.2 = rows (A lvl).
Proof.
  intros Hok Hrhs Hx Hd.
  destruct (cycle_body_ok (cycle_rec d true prm) (vcycle d true prm)
              (cycle_trace prm (S (length rest)))
              same prm lvl nxt rest rhs x tr) as (_ & Hsh & Hlen & _);
    try done.
  intros sub f0 u0 Hsok Hsargs Hslen.
  destruct (cycle_rec_vcycle prm d true sub f0 u0 Hsok Hsargs)
    as (? & ? & ? & ?); [lia|].
  repeat split; try done. by rewrite Hslen in *.
Qed.

(** The vector that the cycle computes depends neither on what the scratch
    vectors hold nor on the commit path of [relax]. *)
Lemma vcycle_scratch prm d :
  ∀ same same2 lvls1 lvls2 rhs x,
  hier_shape lvls1 lvls2 → hier_ok lvls1 = true →
  args_ok lvls1 rhs x = true → length lvls1 ≤ d →
  (vcycle d same prm lvls1 rhs x).1.2 = (vcycle d same2 prm lvls2 rhs x).1.2.
Proof.
  induction d as [|d IH];
    intros same same2 lvls1 lvls2 rhs x Hsh Hok Hargs Hd.
  { destruct lvls1; [done|simpl in Hd; lia]. }
  destruct Hsh as [|lvl1 lvl2 rest1 rest2 Hl Hr]; [done|].
  apply args_ok_cons in Hargs as [Hrhs Hx].
  destruct Hr as [|nxt1 nxt2 rest1 rest2 Hn Hr].
  { simpl. by destruct Hl as (-> & _ & _ & -> & _). }
  change (vcycle (S d) same prm (lvl1 :: nxt1 :: rest1) rhs x) with
    (Nat.iter (ncycle prm)
       (two_grid (vcycle d true prm) same prm
          (rows (A lvl1)) (rows (A nxt1)) rhs)
       (lvl1 :: nxt1 :: rest1, x, [])).
  change (vcycle (S d) same2 prm (lvl2 :: nxt2 :: rest2) rhs x) with
    (Nat.iter (ncycle prm)
       (two_grid (vcycle d true prm) same2 prm
          (rows (A lvl2)) (rows (A nxt2)) rhs)
       (lvl2 :: nxt2 :: rest2, x, [])).
  set (l1 := lvl1 :: nxt1 :: rest1) in *.
  set (l2 := lvl2 :: nxt2 :: rest2).
  assert (Hsh : hier_shape l1 l2).
  { subst l1 l2. constructor; [exact Hl|]. constructor; [exact Hn|exact Hr]. }
  pose proof Hl as (EA & _). pose proof Hn as (EAn & _).
  rewrite EA, EAn.
  remember (rows (A lvl1)) as n eqn:En.
  remember (rows (A nxt1)) as nc eqn:Enc.
  set (tg := two_grid (vcycle d true prm) same prm n nc rhs).
  set (tg2 := two_grid (vcycle d true prm) same2 prm n nc rhs).
  enough (Hinv : ∀ k,
    hier_shape l1 (Nat.iter k tg (l1, x, [])).1.1
    ∧ hier_shape l1 (Nat.iter k tg2 (l2, x, [])).1.1
    ∧ length (Nat.iter k tg (l1, x, [])).1.2 = n
    ∧ (Nat.iter k tg (l1, x, [])).1.2 = (Nat.iter k tg2 (l2, x, [])).1.2)
    by apply Hinv.
  intros k. induction k as [|k (Hs1 & Hs2 & Hlen & Heq)].
  { simpl. repeat split; try done. apply hier_shape_refl. }
  simpl.
  destruct (Nat.iter k tg (l1, x, [])) as [[s1 x1] tr1].
  destruct (Nat.iter k tg2 (l2, x, [])) as [[s2 x2] tr2].
  simpl in Hs1, Hs2, Hlen, Heq. subst x2. subst l1.
  inversion Hs1 as [|? a1 ? t1 Ha1 Ht1]; subst s1.
  inversion Ht1 as [|? b1 ? r1 Hb1 Hr1]; subst t1.
  inversion Hs2 as [|? a2 ? t2 Ha2 Ht2]; subst s2.
  inversion Ht2 as [|? b2 ? r2 Hb2 Hr2]; subst t2.
  pose proof (hier_ok_shape _ _ Hs1 Hok) as Hok1.
  pose proof (hier_ok_shape _ _ Hs2 Hok) as Hok2.
  pose proof Ha1 as (EA1 & EP1 & ER1 & _).
  pose proof Ha2 as (EA2 & EP2 & ER2 & _).
  pose proof Hb1 as (EB1 & _ & _ & _ & EU1 & _).
  pose proof Hb2 as (EB2 & _ & _ & _ & EU2 & _).
  assert (Hlr1 : length r1 = length rest1).
  { symmetry. by apply hier_shape_length. }
  assert (Hlr2 : length r2 = length rest1).
  { symmetry. by apply hier_shape_length. }
  assert (En1 : rows (A a1) = n) by congruence.
  assert (En2 : rows (A a2) = n) by congruence.
  assert (Ec1 : rows (A b1) = nc) by congruence.
  assert (Ec2 : rows (A b2) = nc) by congruence.
  pose proof (two_grid_shape prm d same a1 b1 r1 rhs x1 tr1 Hok1)
    as Hg1.
  pose proof (two_grid_shape prm d same2 a2 b2 r2 rhs x1 tr2 Hok2)
    as Hg2.
  cbv zeta in Hg1, Hg2. rewrite En1, Ec1 in Hg1. rewrite En2, Ec2 in Hg2.
  destruct Hg1 as [Hsh1' Hlen1']; [congruence|congruence|simpl in Hd; lia|].
  destruct Hg2 as [Hsh2' Hlen2']; [congruence|congruence|simpl in Hd; lia|].
  subst tg tg2. split; [by apply (hier_shape_trans _ _ _ Hs1)|].
  split; [by apply (hier_shape_trans _ _ _ Hs2)|].
  split; [done|].
  rewrite !two_grid_snd. cbv zeta.
  rewrite EA1, EP1, ER1, EA2, EP2, ER2, EU1, EU2.
  f_equal. apply map_ext. intros i. do 2 f_equal.
  apply hier_ok_step in Hok1 as (_ & _ & _ & _ & Hu1 & Hf1 & Hsub1).
  apply IH.
  - constructor.
    + destruct Hb1 as (? & ? & ? & ? & ? & ? & ?).
      destruct Hb2 as (? & ? & ? & ? & ? & ? & ?).
      repeat split; simpl; congruence.
    + apply (hier_shape_trans _ rest1); [by apply hier_shape_sym|done].
  - apply (hier_ok_shape (b1 :: r1)); [|done].
    constructor; [|apply hier_shape_refl].
    repeat split; simpl;
      rewrite ?length_mat_vec, ?length_replicate; congruence.
  - apply args_ok_cons. simpl.
    rewrite length_mat_vec, length_replicate. split; congruence.
  - simpl in *. lia.
Qed.

End ScratchFacts.

Section ScratchClaim.
Context {V : Type} `{Scalar V}.
Implicit Types (lvls : list (cpu V)) (x rhs : list V).

(** X8. The scratch vectors carry nothing from one call to the next: two
    well-formed sequences with the same operators and scratch vectors of
    the same sizes, whatever these hold, give the same [x] and the same
    sequence of steps. *)
Theorem cycle_ignores_scratch same prm lvls1 lvls2 rhs x :
  hier_shape lvls1 lvls2 → hier_ok lvls1 = true →
  args_ok lvls1 rhs x = true →
  ∃ l1' l2' x' tr,
    cycle same prm lvls1 rhs x = Some (l1', x', tr)
    ∧ cycle same prm lvls2 rhs x = Some (l2', x', tr).
Proof.
  intros Hsh Hok Hargs.
  pose proof (hier_ok_shape _ _ Hsh Hok) as Hok2.
  assert (Hargs2 : args_ok lvls2 rhs x = true).
  { destruct Hsh as [|lvl lvl' rest rest' Hl Hr]; [done|].
    apply args_ok_cons in Hargs as [Hrhs Hx]. apply args_ok_cons.
    destruct Hl as (-> & _). done. }
  destruct (cycle_rec_vcycle prm (length lvls1) same lvls1 rhs x Hok Hargs)
    as (Hrun1 & _ & _ & Htr1); [done|].
  destruct (cycle_rec_vcycle prm (length lvls2) same lvls2 rhs x Hok2 Hargs2)
    as (Hrun2 & _ & _ & Htr2); [done|].
  pose proof (vcycle_scratch prm (length lvls1) same same lvls1 lvls2 rhs x
                Hsh Hok Hargs) as Hx.
  pose proof (hier_shape_length _ _ Hsh) as Hlen.
  unfold cycle. rewrite Hrun1, Hrun2. rewrite <- Hlen in *.
  destruct (vcycle (length lvls1) same prm lvls1 rhs x) as [[l1' x1] tr1].
  destruct (vcycle (length lvls1) same prm lvls2 rhs x) as [[l2' x2] tr2].
  simpl in *. exists l1', l2', x1, tr1. split; [done|].
  rewrite <- Hx by done. congruence.
Qed.

(** X14. The commit path of [relax] does not show in the result of a
    cycle: called with an [x] that is swapped and with one that is copied,
    [cycle] returns the same [x] and runs the same steps. *)
Theorem cycle_commit_path prm lvls rhs x :
  hier_ok lvls = true → args_ok lvls rhs x = true →
  ∃ l1' l2' x' tr,
    cycle true prm lvls rhs x = Some (l1', x', tr)
    ∧ cycle false prm lvls rhs x = Some (l2', x', tr).
Proof.
  intros Hok Hargs.
  destruct (cycle_rec_vcycle prm (length lvls) true lvls rhs x Hok Hargs)
    as (Hrun1 & _ & _ & Htr1); [done|].
  destruct (cycle_rec_vcycle prm (length lvls) false lvls rhs x Hok Hargs)
    as (Hrun2 & _ & _ & Htr2); [done|].
  pose proof (vcycle_scratch prm (length lvls) true false lvls lvls rhs x
                (hier_shape_refl lvls) Hok Hargs) as Hx.
  unfold cycle. rewrite Hrun1, Hrun2.
  destruct (vcycle (length lvls) true prm lvls rhs x) as [[l1' x1] tr1].
  destruct (vcycle (length lvls) false prm lvls rhs x) as [[l2' x2] tr2].
  simpl in *. exists l1', l2', x1, tr1. split; [done|].
  rewrite <- Hx by done. congruence.
Qed.

End ScratchClaim.

Section FieldMore.
Context {V : Type} `{Scalar V}.
Variables (vopp vinv : V → V).
Hypothesis Vfield :
  field_theory vzero vone vadd vmul vsub vopp vdiv vinv eq.
Local Open Scope scalar_scope.
Implicit Types (lvl nxt : cpu V) (lvls sub rest : list (cpu V)).
Implicit Types (x rhs w l : list V) (tr : list event) (M : matrix V).

Add Field Vfield_more : Vfield.

(** Zero divided by anything but zero. Division by zero is left open: the
    field laws say nothing of it, and in floating point [0 / 0] is not a
    number. *)
Lemma vdiv_zero d : d ≠ vzero → vzero ⊘ d = vzero.
Proof. intros Hd. field. exact Hd. Qed.

(** The levels that [cycle] smooths keep their diagonals, since [cycle]
    never writes to [A]. *)
Lemma smoothed_nonzero_shape lvls (lvls' : list (cpu V)) :
  hier_shape lvls lvls' → smoothed_nonzero lvls → smoothed_nonzero lvls'.
Proof.
  intros Hsh. induction Hsh as [|a b r1 r2 Hab Hr IH]; [done|].
  destruct Hr as [|c e r1 r2 Hce Hr]; [done|].
  intros [Ha Hrest]. split; [|by apply IH].
  destruct Hab as (EA & _). unfold diag_nonzero. by rewrite EA.
Qed.

Lemma vsum_all_zero {B : Type} (g : B → V) (es : list B) :
  (∀ e, g e = vzero) → vsum (map g es) = vzero.
Proof.
  intros Hg. induction es as [|e es IH]; simpl; [done|].
  rewrite (vsum_cons vopp vinv Vfield), Hg, IH. ring.
Qed.

Lemma vget_zeros n c : vget (replicate n vzero) c = vzero.
Proof.
  unfold vget. destruct (replicate n vzero !! c) as [a|] eqn:E; [|done].
  by apply lookup_replicate in E as [-> _].
Qed.

Lemma row_dot_zeros M n i : row_dot M (replicate n vzero) i = vzero.
Proof.
  unfold row_dot. apply vsum_all_zero. intros e. unfold term.
  rewrite vget_zeros. ring.
Qed.

Lemma mat_vec_zeros M k n : mat_vec M k (replicate n vzero) = replicate k vzero.
Proof.
  unfold mat_vec. apply list_eq. intros i.
  rewrite list_lookup_fmap. destruct (decide (i < k)) as [Hi|Hi].
  - rewrite lookup_seq_lt by done. simpl.
    by rewrite row_dot_zeros, lookup_replicate_2.
  - rewrite lookup_seq_ge by lia. simpl. symmetry.
    apply lookup_replicate_None. lia.
Qed.

Lemma map_vget_seq x : map (vget x) (seq 0 (length x)) = x.
Proof.
  apply list_eq. intros i. rewrite list_lookup_fmap.
  destruct (decide (i < length x)) as [Hi|Hi].
  - rewrite lookup_seq_lt by done. simpl. by rewrite lookup_vget.
  - rewrite lookup_seq_ge by lia. simpl. symmetry.
    apply lookup_ge_None_2. lia.
Qed.

(** A vector that solves the rows of [M x = rhs] has zero defect, and is a
    fixed point of the Jacobi map when no row has a zero diagonal. *)
Lemma defect_solution M k rhs x :
  (∀ i, i < k → row_dot M x i = vget rhs i) →
  defect M k rhs x = replicate k vzero.
Proof.
  intros Hsol. unfold defect. apply list_eq. intros i.
  rewrite list_lookup_fmap. destruct (decide (i < k)) as [Hi|Hi].
  - rewrite lookup_seq_lt by done. simpl.
    rewrite (row_defect_dot vopp vinv Vfield), Hsol by done.
    rewrite lookup_replicate_2 by done. f_equal. ring.
  - rewrite lookup_seq_ge by lia. simpl. symmetry.
    apply lookup_replicate_None. lia.
Qed.

Lemma jacobi_solution M rhs x :
  (∀ i, i < rows M → row_diag M i ≠ vzero) →
  length x = rows M →
  (∀ i, i < rows M → row_dot M x i = vget rhs i) →
  jacobi M rhs x = x.
Proof.
  intros Hdiag Hx Hsol. rewrite <- (map_vget_seq x) at 2. rewrite Hx.
  unfold jacobi. apply map_ext_in. intros i Hi%in_seq.
  unfold jacobi_row.
  rewrite (row_defect_dot vopp vinv Vfield), Hsol by lia.
  replace (vget rhs i ⊖ vget rhs i) with vzero by ring.
  rewrite vdiv_zero by (apply Hdiag; lia). ring.
Qed.

Lemma jacobi_iter_solution k M rhs x :
  (∀ i, i < rows M → row_diag M i ≠ vzero) →
  length x = rows M →
  (∀ i, i < rows M → row_dot M x i = vget rhs i) →
  Nat.iter k (jacobi M rhs) x = x.
Proof.
  intros Hdiag Hx Hsol. induction k as [|k IH]; simpl; [done|].
  rewrite IH. by apply jacobi_solution.
Qed.

(** The value of [resid], with the sums read in the field. *)
Lemma resid_value lvl rhs x :
  matrix_ok (A lvl) (rows (A lvl)) (rows (A lvl)) = true →
  length rhs = rows (A lvl) → length x = rows (A lvl) →
  resid lvl rhs x
  = Some (vsqrt (sum_sq (defect (A lvl) (rows (A lvl)) rhs x))).
Proof.
  intros HA Hrhs Hx. unfold resid.
  destruct (for_each_fold (λ _, True) (seq 0 (rows (A lvl)))
              (λ i a, temp ← resid_row (A lvl) rhs x i;
                      Some (a ⊕ temp ⊗ temp))
              (λ a i, a ⊕ row_defect (A lvl) rhs x i
                          ⊗ row_defect (A lvl) rhs x i)
              vzero) as [-> _]; [done| |].
  { intros i a Hi%list_elem_of_In%in_seq _. split; [|done].
    rewrite (resid_row_ok _ (rows (A lvl))); try lia; [done|].
    apply (matrix_ok_row _ (rows (A lvl))); [done|lia]. }
  simpl. do 2 f_equal. unfold sum_sq, vsum, defect.
  by rewrite !fold_left_map_fuse.
Qed.

(** X9. A solution is a fixed point of the smoother: when the diagonal
    that [relax] divides by is not zero on any row (a row without a stored
    diagonal divides by one) and [x] satisfies every row of [A x = rhs],
    [relax] returns [x] itself, on either commit path. *)
Theorem relax_fixed_point same lvl rhs x :
  relax_ok lvl rhs x = true →
  diag_nonzero lvl →
  (∀ i, i < rows (A lvl) → row_dot (A lvl) x i = vget rhs i) →
  relax same lvl rhs x = Some (set_t lvl x, x).
Proof.
  intros Hok Hdiag Hsol.
  pose proof Hok as (HA & Ht & Hrhs & Hx)%relax_ok_inv.
  rewrite (relax_sweep _ _ _ _ Hok). simpl.
  rewrite (jacobi_solution _ _ _ Hdiag Hx Hsol). by destruct same.
Qed.

Lemma resid_zero_defect lvl rhs x :
  matrix_ok (A lvl) (rows (A lvl)) (rows (A lvl)) = true →
  length rhs = rows (A lvl) → length x = rows (A lvl) →
  (∀ i, i < rows (A lvl) → row_dot (A lvl) x i = vget rhs i) →
  resid lvl rhs x = Some (vsqrt vzero).
Proof.
  intros HA Hrhs Hx Hsol. rewrite resid_value by done.
  rewrite (defect_solution _ _ _ _ Hsol). do 2 f_equal.
  generalize (rows (A lvl)) as k. intros k.
  unfold sum_sq. induction k as [|k IH]; simpl; [done|].
  rewrite (vsum_cons vopp vinv Vfield), IH. ring.
Qed.

(** X10. The residual norm of a solution: when [x] satisfies every row of
    [A x = rhs], [resid] returns [sqrt 0]. *)
Theorem resid_of_solution lvl rhs x :
  matrix_ok (A lvl) (rows (A lvl)) (rows (A lvl)) = true →
  length rhs = rows (A lvl) → length x = rows (A lvl) →
  (∀ i, i < rows (A lvl) → row_dot (A lvl) x i = vget rhs i) →
  resid lvl rhs x = Some (vsqrt vzero).
Proof. apply resid_zero_defect. Qed.

(** X15. The direct solve is exact when [Ai] inverts [A] on [rhs]: if
    [A (Ai rhs) = rhs] row by row, the [x] that [cycle] returns on the last
    level has residual norm [sqrt 0]. *)
Theorem direct_solve_exact same prm lvl rhs x :
  hier_ok [lvl] = true → args_ok [lvl] rhs x = true →
  matrix_ok (A lvl) (rows (A lvl)) (rows (A lvl)) = true →
  (∀ i, i < rows (A lvl) →
     row_dot (A lvl) (mat_vec (Ai lvl) (rows (A lvl)) rhs) i = vget rhs i) →
  ∃ x',
    cycle same prm [lvl] rhs x = Some ([lvl], x', [EvSolve 1])
    ∧ resid lvl rhs x' = Some (vsqrt vzero).
Proof.
  intros Hok Hargs HA Hinv. pose proof Hargs as [Hrhs Hx]%args_ok_cons.
  destruct (cycle_rec_vcycle prm 1 same [lvl] rhs x Hok Hargs)
    as (Hrun & _); [done|].
  exists (mat_vec (Ai lvl) (rows (A lvl)) rhs). split; [exact Hrun|].
  apply resid_zero_defect; try done. by rewrite length_mat_vec.
Qed.

(** One iteration of [two_grid] from a solution of the first level, when
    the coarser levels return zero for the zero problem. *)
Lemma two_grid_solution prm d same lvl nxt rest rhs x tr :
  hier_ok (lvl :: nxt :: rest) = true →
  diag_nonzero lvl →
  length x = rows (A lvl) →
  (∀ i, i < rows (A lvl) → row_dot (A lvl) x i = vget rhs i) →
  (vcycle d true prm
     (set_u (set_f nxt (replicate (rows (A nxt)) vzero))
        (replicate (rows (A nxt)) vzero) :: rest)
     (replicate (rows (A nxt)) vzero)
     (replicate (rows (A nxt)) vzero)).1.2
  = replicate (rows (A nxt)) vzero →
  (two_grid (vcycle d true prm) same prm (rows (A lvl)) (rows (A nxt)) rhs
     (lvl :: nxt :: rest, x, tr)).1.2 = x.
Proof.
  intros (HA & HR & HP & Ht & Hu & Hf & Hsub)%hier_ok_step Hdiag Hx Hsol
    Hzero.
  rewrite two_grid_snd. cbv zeta.
  rewrite (jacobi_iter_solution _ _ _ _ Hdiag Hx Hsol).
  rewrite (defect_solution _ _ _ _ Hsol), mat_vec_zeros, Hu.
  rewrite Hzero.
  replace (map _ (seq 0 (rows (A lvl)))) with x.
  { by apply jacobi_iter_solution. }
  rewrite <- (map_vget_seq x) at 1. rewrite Hx. apply map_ext. intros i.
  rewrite row_dot_zeros. ring.
Qed.

Lemma iter_two_grid_solution prm d same lvl nxt rest rhs x k :
  hier_ok (lvl :: nxt :: rest) = true →
  smoothed_nonzero (lvl :: nxt :: rest) →
  length rhs = rows (A lvl) → length x = rows (A lvl) →
  (∀ i, i < rows (A lvl) → row_dot (A lvl) x i = vget rhs i) →
  S (length rest) ≤ d →
  (∀ nxt' rest', hier_ok (nxt' :: rest') = true →
     smoothed_nonzero (nxt' :: rest') →
     length rest' = length rest →
     (vcycle d true prm (nxt' :: rest')
        (replicate (rows (A nxt')) vzero)
        (replicate (rows (A nxt')) vzero)).1.2
     = replicate (rows (A nxt')) vzero) →
  (Nat.iter k
     (two_grid (vcycle d true prm) same prm (rows (A lvl)) (rows (A nxt))
        rhs)
     (lvl :: nxt :: rest, x, [])).1.2 = x.
Proof.
  intros Hok [Hdiag Hnz] Hrhs Hx Hsol Hd Hzero.
  set (tg := two_grid (vcycle d true prm) same prm
               (rows (A lvl)) (rows (A nxt)) rhs).
  enough (Hinv : hier_shape (lvl :: nxt :: rest)
                   (Nat.iter k tg (lvl :: nxt :: rest, x, [])).1.1
                 ∧ (Nat.iter k tg (lvl :: nxt :: rest, x, [])).1.2 = x)
    by apply Hinv.
  induction k as [|k [Hsh Hxk]]; simpl.
  { split; [apply hier_shape_refl|done]. }
  destruct (Nat.iter k tg (lvl :: nxt :: rest, x, [])) as [[s xk] trk].
  simpl in Hsh, Hxk. subst xk.
  inversion Hsh as [|? a ? t1 Ha Ht1]; subst s.
  inversion Ht1 as [|? b ? r Hb Hr]; subst t1.
  pose proof (hier_ok_shape _ _ Hsh Hok) as Hok'.
  pose proof Ha as (EA & _). pose proof Hb as (EB & _).
  assert (Hlr : length r = length rest).
  { symmetry. by apply hier_shape_length. }
  pose proof (two_grid_shape prm d same a b r rhs x trk Hok') as Hg.
  pose proof (two_grid_solution prm d same a b r rhs x trk Hok') as Hs.
  cbv zeta in Hg. rewrite EA, EB in Hg, Hs. subst tg.
  destruct Hg as [Hsh' _]; [done|done|lia|].
  split; [by apply (hier_shape_trans _ _ _ Hsh)|].
  apply Hs; [|done|done|].
  { unfold diag_nonzero. by rewrite EA. }
  apply hier_ok_step in Hok' as (_ & _ & _ & _ & Hu & Hf & Hsub).
  rewrite <- EB.
  assert (Hshb : hier_shape (b :: r)
            (set_u (set_f b (replicate (rows (A b)) vzero))
               (replicate (rows (A b)) vzero) :: r)).
  { constructor; [|apply hier_shape_refl].
    repeat split; simpl; rewrite ?length_replicate; congruence. }
  apply (Hzero (set_u (set_f b (replicate (rows (A b)) vzero))
                      (replicate (rows (A b)) vzero)) r); [| |done].
  - by apply (hier_ok_shape (b :: r)).
  - apply (smoothed_nonzero_shape (nxt :: rest)); [|done].
    apply (hier_shape_trans _ (b :: r)); [|done].
    by constructor.
Qed.

(** The zero problem: from [x = 0] with [rhs = 0] the cycle returns
    [x = 0], when no smoothed row has a zero diagonal. *)
Lemma vcycle_zero prm d :
  ∀ same lvl rest,
  hier_ok (lvl :: rest) = true → smoothed_nonzero (lvl :: rest) →
  S (length rest) ≤ d →
  (vcycle d same prm (lvl :: rest)
     (replicate (rows (A lvl)) vzero)
     (replicate (rows (A lvl)) vzero)).1.2
  = replicate (rows (A lvl)) vzero.
Proof.
  induction d as [|d IH]; intros same lvl rest Hok Hnz Hd; [lia|].
  destruct rest as [|nxt rest].
  { simpl. apply mat_vec_zeros. }
  apply (iter_two_grid_solution prm d same lvl nxt rest); try done.
  - by rewrite length_replicate.
  - by rewrite length_replicate.
  - intros i _. by rewrite row_dot_zeros, vget_zeros.
  - simpl in Hd. lia.
  - intros nxt' rest' Hok' Hnz' Hlen. apply IH; [done|done|].
    simpl in Hd. lia.
Qed.

(** X11. The zero problem stays at zero: on a well-formed sequence where
    the diagonal that [relax] divides by is not zero on any row of the
    smoothed levels (all but the last), with [rhs = 0] and [x = 0], [cycle]
    returns [x = 0], for every configuration. *)
Theorem cycle_zero_problem same prm lvl rest :
  hier_ok (lvl :: rest) = true →
  smoothed_nonzero (lvl :: rest) →
  ∃ lvls' tr,
    cycle same prm (lvl :: rest)
      (replicate (rows (A lvl)) vzero) (replicate (rows (A lvl)) vzero)
    = Some (lvls', replicate (rows (A lvl)) vzero, tr).
Proof.
  intros Hok Hnz.
  destruct (cycle_rec_vcycle prm (S (length rest)) same (lvl :: rest)
              (replicate (rows (A lvl)) vzero)
              (replicate (rows (A lvl)) vzero) Hok) as (Hrun & _); [|done|].
  { apply args_ok_cons. by rewrite length_replicate. }
  pose proof (vcycle_zero prm (S (length rest)) same lvl rest Hok Hnz)
    as Hz.
  unfold cycle. change (length (lvl :: rest)) with (S (length rest)).
  rewrite Hrun.
  destruct (vcycle _ _ _ _ _ _) as [[lvls' x'] tr]. simpl in Hz.
  rewrite Hz by done. by eexists _, _.
Qed.

(** X12. A solution is a fixed point of the cycle: on a well-formed
    sequence of at least two levels where the diagonal that [relax] divides
    by is not zero on any row of the smoothed levels (all but the last),
    when [x] satisfies every row of [A x = rhs] on the first level, [cycle]
    returns [x] itself, for every configuration. *)
Theorem cycle_fixed_point same prm lvl nxt rest rhs x :
  hier_ok (lvl :: nxt :: rest) = true →
  smoothed_nonzero (lvl :: nxt :: rest) →
  args_ok (lvl :: nxt :: rest) rhs x = true →
  (∀ i, i < rows (A lvl) → row_dot (A lvl) x i = vget rhs i) →
  ∃ lvls' tr,
    cycle same prm (lvl :: nxt :: rest) rhs x = Some (lvls', x, tr).
Proof.
  intros Hok Hnz Hargs Hsol. pose proof Hargs as [Hrhs Hx]%args_ok_cons.
  destruct (cycle_rec_vcycle prm (S (S (length rest))) same
              (lvl :: nxt :: rest) rhs x Hok Hargs) as (Hrun & _); [done|].
  assert (Hfix :
    (Nat.iter (ncycle prm)
       (two_grid (vcycle (S (length rest)) true prm) same prm
          (rows (A lvl)) (rows (A nxt)) rhs)
       (lvl :: nxt :: rest, x, [])).1.2 = x).
  { apply iter_two_grid_solution; try done.
    intros nxt' rest' Hok' Hnz' Hlen. apply vcycle_zero; [done|done|lia]. }
  unfold cycle. change (length (lvl :: nxt :: rest)) with (S (S (length rest))).
  rewrite Hrun.
  change (vcycle (S (S (length rest))) same prm (lvl :: nxt :: rest) rhs x)
    with (Nat.iter (ncycle prm)
            (two_grid (vcycle (S (length rest)) true prm) same prm
               (rows (A lvl)) (rows (A nxt)) rhs)
            (lvl :: nxt :: rest, x, [])).
  destruct (Nat.iter _ _ _) as [[lvls' x'] tr]. simpl in Hfix.
  rewrite Hfix. by eexists _, _.
Qed.

(** X13. Two levels, one cycle, no smoothing: [cycle] returns
    [x + P (Ai (R (rhs - A x)))], the correction computed on the last level
    added to the [x] that was passed in. *)
Theorem two_level_correction same prm lvl last rhs x :
  hier_ok [lvl; last] = true → args_ok [lvl; last] rhs x = true →
  ncycle prm = 1 → npre prm = 0 → npost prm = 0 →
  ∃ lvls' tr,
    cycle same prm [lvl; last] rhs x
    = Some (lvls',
            map (λ i, vget x i
                      ⊕ row_dot (P lvl)
                          (mat_vec (Ai last) (rows (A last))
                             (mat_vec (R lvl) (rows (A last))
                                (residual (A lvl) (rows (A lvl)) rhs x)))
                          i)
                (seq 0 (rows (A lvl))),
            tr).
Proof.
  intros Hok Hargs Hn Hpre Hpost.
  destruct (cycle_rec_vcycle prm 2 same [lvl; last] rhs x Hok Hargs)
    as (Hrun & _); [done|].
  unfold cycle. change (length [lvl; last]) with 2. rewrite Hrun.
  change (vcycle 2 same prm [lvl; last] rhs x)
    with (Nat.iter (ncycle prm)
            (two_grid (vcycle 1 true prm) same prm
               (rows (A lvl)) (rows (A last)) rhs)
            ([lvl; last], x, [])).
  rewrite Hn. cbn [Nat.iter nat_rect].
  pose proof (two_grid_snd (vcycle 1 true prm) same prm
                (rows (A lvl)) (rows (A last)) rhs lvl last [] x []) as Hx'.
  cbv zeta in Hx'. rewrite Hpre, Hpost in Hx'. cbn [Nat.iter nat_rect] in Hx'.
  rewrite (defect_residual vopp vinv Vfield) in Hx'.
  cbn [vcycle fst snd A Ai set_u set_f] in Hx'.
  destruct (two_grid _ _ _ _ _ _ _) as [[lvls' x'] tr].
  cbn [fst snd] in Hx'. rewrite Hx'. by eexists _, _.
Qed.

End FieldMore.

(** ** Instances on the rationals *)

Lemma lvl_fine_diag : diag_nonzero lvl_fine.
Proof.
  intros i Hi. destruct i as [|[|i]]; [| |simpl in Hi; lia];
    intros E; apply (f_equal this) in E; vm_compute in E; discriminate.
Qed.

Lemma lvl_mid_diag : diag_nonzero lvl_mid.
Proof.
  intros i Hi. destruct i as [|i]; [|simpl in Hi; lia].
  intros E; apply (f_equal this) in E; vm_compute in E; discriminate.
Qed.

Lemma hier3_diag : smoothed_nonzero hier3.
Proof. split; [exact lvl_fine_diag|]. split; [exact lvl_mid_diag|done]. Qed.

Lemma m_fine_solution i :
  i < 2 → row_dot m_fine [qz 1; qz 1] i = vget [qz 1; qz 1] i.
Proof.
  intros Hi. destruct i as [|[|i]]; [| |lia];
    apply Qc_is_canon; reflexivity.
Qed.

Lemma constructed_sequence_ok_witness :
  hier_ok [built_fine; built_last] = true
  ∧ is_Some (cycle false (Params 2 1 1) [built_fine; built_last]
               [qz 1; qz 1] [qz 0; qz 0]).
Proof.
  apply (constructed_sequence_ok no_matrix false (Params 2 1 1)
           m_fine p_fine r_fine false built_last []
           [qz 1; qz 1] [qz 0; qz 0]); try reflexivity.
  right. by exists m_two, m_half.
Defined.

Lemma cycle_successor_without_parent_witness :
  cycle false (Params 1 1 1)
    [lvl_fine; cpu_interior no_matrix m_two m_one m_one false; lvl_last]
    [qz 1; qz 1] [qz 0; qz 0]
  = None.
Proof.
  apply (cycle_successor_without_parent no_matrix false (Params 1 1 1)
           lvl_fine m_two m_one m_one [lvl_last]); simpl; lia.
Defined.

Lemma relax_undersized_witness :
  relax true lvl_fine [qz 1; qz 1] [qz 0] = None.
Proof.
  apply (relax_undersized true lvl_fine [qz 1; qz 1] [qz 0]).
  left. simpl. lia.
Defined.

Lemma relax_oversized_witness :
  relax true lvl_fine [qz 1; qz 1; qz 7] [qz 0; qz 0; qz 5]
  = Some (set_t lvl_fine [qz 0; qz 0; qz 5],
          jacobi m_fine [qz 1; qz 1; qz 7] [qz 0; qz 0; qz 5])
  ∧ relax false lvl_fine [qz 1; qz 1; qz 7] [qz 0; qz 0; qz 5]
    = Some (set_t lvl_fine
              (jacobi m_fine [qz 1; qz 1; qz 7] [qz 0; qz 0; qz 5]),
            jacobi m_fine [qz 1; qz 1; qz 7] [qz 0; qz 0; qz 5] ++ [qz 5]).
Proof.
  apply (relax_oversized lvl_fine [qz 1; qz 1; qz 7] [qz 0; qz 0; qz 5]);
    try reflexivity; simpl; lia.
Defined.

Lemma relax_iterates_witness :
  ∃ w,
    Nat.iter 3 (λ o, '(l, y) ← o; relax true l [qz 1; qz 1] y)
      (Some (lvl_fine, [qz 0; qz 0]))
    = Some (set_t lvl_fine w,
            Nat.iter 3 (jacobi m_fine [qz 1; qz 1]) [qz 0; qz 0])
    ∧ length w = 2.
Proof.
  apply (relax_iterates true 3 lvl_fine [qz 1; qz 1] [qz 0; qz 0]).
  reflexivity.
Defined.

Lemma cycle_keeps_hierarchy_witness :
  ∃ lvls' x' tr,
    cycle false (Params 2 1 1) hier3 [qz 1; qz 1] [qz 0; qz 0]
    = Some (lvls', x', tr)
    ∧ hier_shape hier3 lvls' ∧ length x' = 2
    ∧ hier_ok lvls' = true ∧ args_ok lvls' [qz 1; qz 1] x' = true
    ∧ is_Some (cycle false (Params 2 1 1) lvls' [qz 1; qz 1] x').
Proof.
  apply (cycle_keeps_hierarchy false (Params 2 1 1) hier3
           [qz 1; qz 1] [qz 0; qz 0]); reflexivity.
Defined.

Lemma cycle_sweep_counts_witness :
  ∃ lvls' x' tr,
    cycle false (Params 1 2 3) hier3 [qz 1; qz 1] [qz 0; qz 0]
    = Some (lvls', x', tr)
    ∧ replay false tr ([], hier3, [qz 1; qz 1], [qz 0; qz 0])
      = Some ([], lvls', [qz 1; qz 1], x')
    ∧ count_ev (EvRelax 1) tr = 0
    ∧ count_ev (EvRelax 2) tr = 5 ∧ count_ev (EvRelax 3) tr = 5
    ∧ count_if is_relax tr = 10.
Proof.
  destruct (cycle_sweep_counts false (Params 1 2 3) hier3
              [qz 1; qz 1] [qz 0; qz 0] eq_refl eq_refl)
    as (lvls' & x' & tr & Hrun & Hrep & Hlast & Hgen & Hone).
  destruct (Hone eq_refl) as [Hall Heach].
  exists lvls', x', tr. repeat split; try assumption.
  - apply (Heach 2). simpl. lia.
  - apply (Hgen 3). simpl. lia.
Defined.

Lemma cycle_ignores_scratch_witness :
  ∃ l1' l2' x' tr,
    cycle false (Params 1 1 1) hier3 [qz 1; qz 1] [qz 0; qz 0]
    = Some (l1', x', tr)
    ∧ cycle false (Params 1 1 1)
        [set_t lvl_fine [qz 7; qz 9]; set_u lvl_mid [qz 5];
         set_f lvl_last [qz 3]]
        [qz 1; qz 1] [qz 0; qz 0]
      = Some (l2', x', tr).
Proof.
  apply (cycle_ignores_scratch false (Params 1 1 1) hier3
           [set_t lvl_fine [qz 7; qz 9]; set_u lvl_mid [qz 5];
            set_f lvl_last [qz 3]]
           [qz 1; qz 1] [qz 0; qz 0]); try reflexivity.
  repeat constructor.
Defined.

Lemma relax_fixed_point_witness :
  relax false lvl_fine [qz 1; qz 1] [qz 1; qz 1]
  = Some (set_t lvl_fine [qz 1; qz 1], [qz 1; qz 1]).
Proof.
  apply (relax_fixed_point (H:=Qc_scalar) Qcopp Qcinv Qcft
           false lvl_fine [qz 1; qz 1] [qz 1; qz 1]).
  - reflexivity.
  - exact lvl_fine_diag.
  - exact m_fine_solution.
Defined.

Lemma resid_of_solution_witness :
  resid lvl_fine [qz 1; qz 1] [qz 1; qz 1] = Some (vsqrt vzero).
Proof.
  apply (resid_of_solution (H:=Qc_scalar) Qcopp Qcinv Qcft
           lvl_fine [qz 1; qz 1] [qz 1; qz 1]); try reflexivity.
  exact m_fine_solution.
Defined.

Lemma cycle_zero_problem_witness :
  ∃ lvls' tr,
    cycle false (Params 2 1 1) hier3 [qz 0; qz 0] [qz 0; qz 0]
    = Some (lvls', [qz 0; qz 0], tr).
Proof.
  apply (cycle_zero_problem (H:=Qc_scalar) Qcopp Qcinv Qcft
           false (Params 2 1 1) lvl_fine [lvl_mid; lvl_last]).
  - reflexivity.
  - exact hier3_diag.
Defined.

Lemma cycle_fixed_point_witness :
  ∃ lvls' tr,
    cycle false (Params 2 1 1) hier3 [qz 1; qz 1] [qz 1; qz 1]
    = Some (lvls', [qz 1; qz 1], tr).
Proof.
  apply (cycle_fixed_point (H:=Qc_scalar) Qcopp Qcinv Qcft
           false (Params 2 1 1) lvl_fine lvl_mid [lvl_last]
           [qz 1; qz 1] [qz 1; qz 1]); try reflexivity.
  - exact hier3_diag.
  - exact m_fine_solution.
Defined.

Lemma two_level_correction_witness :
  ∃ lvls' tr,
    cycle false (Params 1 0 0) [lvl_fine; lvl_last] [qz 1; qz 1] [qz 0; qz 0]
    = Some (lvls',
            map (λ i, vget [qz 0; qz 0] i
                      ⊕ row_dot p_fine
                          (mat_vec m_half 1
                             (mat_vec r_fine 1
                                (residual m_fine 2 [qz 1; qz 1]
                                   [qz 0; qz 0])))
                          i)%V
                (seq 0 2),
            tr).
Proof.
  apply (two_level_correction (H:=Qc_scalar) Qcopp Qcinv Qcft
           false (Params 1 0 0) lvl_fine lvl_last
           [qz 1; qz 1] [qz 0; qz 0]); reflexivity.
Defined.

Lemma cycle_commit_path_witness :
  ∃ l1' l2' x' tr,
    cycle true (Params 2 1 1) hier3 [qz 1; qz 1] [qz 0; qz 0]
    = Some (l1', x', tr)
    ∧ cycle false (Params 2 1 1) hier3 [qz 1; qz 1] [qz 0; qz 0]
      = Some (l2', x', tr).
Proof.
  apply (cycle_commit_path (Params 2 1 1) hier3 [qz 1; qz 1] [qz 0; qz 0]);
    reflexivity.
Defined.

Lemma m_half_inverts i :
  i < 1 → row_dot m_two (mat_vec m_half 1 [qz 6]) i = vget [qz 6] i.
Proof.
  intros Hi. destruct i as [|i]; [|lia]. apply Qc_is_canon. reflexivity.
Qed.

Lemma direct_solve_exact_witness :
  ∃ x',
    cycle false (Params 1 1 1) [lvl_last] [qz 6] [qz 0]
    = Some ([lvl_last], x', [EvSolve 1])
    ∧ resid lvl_last [qz 6] x' = Some (vsqrt vzero).
Proof.
  apply (direct_solve_exact (H:=Qc_scalar) Qcopp Qcinv Qcft
           false (Params 1 1 1) lvl_last [qz 6] [qz 0]); try reflexivity.
  exact m_half_inverts.
Defined.
